(** * LexMapr [ontofetch.py]: the entity merger

    A shallow embedding of [Ontology.do_entities], [Ontology.do_entity],
    [Ontology.do_entity_text] and [Ontology.do_entity_synonyms]
    (src/lexmapr/ontofetch.py) and of the loop over roots of
    [Ontology.__main__].

    The table [self.onto_helper.struct['specifications']] is a finite map
    from term ids to records; a record is a Python dict, a finite map from
    field names to values.  The RDF graph is read-only during a run and is
    represented by the answers of its three queries.  Python exceptions
    abort the run and are the [Raise] outcome of the monad.  A Python
    string is the string of the bytes of its UTF-8 encoding. *)

From Stdlib Require Import String Ascii List Bool Arith Lia.
From stdpp Require Import base option list strings gmap.

Local Open Scope string_scope.
Local Open Scope list_scope.

(** ** Python string methods used by the synonym cleanup *)

Module PyStr.

(** [s.startswith(p)] *)
Fixpoint startswith (p s : string) : bool :=
  match p with
  | EmptyString => true
  | String a p' =>
      match s with
      | EmptyString => false
      | String b s' => if Ascii.eqb a b then startswith p' s' else false
      end
  end.

(** [s.replace(old, new)] for a non-empty [old]: occurrences are found
    left to right and do not overlap.  [skip] counts the characters of an
    occurrence of [old] that remain to be dropped. *)
Fixpoint replace_from (old new : string) (skip : nat) (s : string) : string :=
  match s with
  | EmptyString => EmptyString
  | String c s' =>
      match skip with
      | S k => replace_from old new k s'
      | O =>
          if startswith old s
          then new +:+ replace_from old new (String.length old - 1) s'
          else String c (replace_from old new 0 s')
      end
  end.

Definition replace (old new s : string) : string := replace_from old new 0 s.

(** [s[n:]] *)
Fixpoint drop_chars (n : nat) (s : string) : string :=
  match n with
  | O => s
  | S k => match s with
           | EmptyString => EmptyString
           | String _ s' => drop_chars k s'
           end
  end.

(** [s.replace(old, new, 1)] for a non-empty [old]: the first occurrence
    only. *)
Fixpoint replace_first (old new s : string) : string :=
  match s with
  | EmptyString => EmptyString
  | String c s' =>
      if startswith old s
      then new +:+ drop_chars (String.length old - 1) s'
      else String c (replace_first old new s')
  end.

(** The white space of Python, the characters for which [str.isspace]
    holds, on the UTF-8 encoding of a string.  In one byte: U+0009 to
    U+000D, U+001C to U+0020.  In two bytes: U+0085 and U+00A0.  In three
    bytes: U+1680, U+2000 to U+200A, U+2028, U+2029, U+202F, U+205F and
    U+3000. *)
Definition space1 (a : ascii) : bool :=
  let n := nat_of_ascii a in
  (((9 <=? n) && (n <=? 13)) || ((28 <=? n) && (n <=? 32)))%nat.

Definition space2 (a b : ascii) : bool :=
  let n := nat_of_ascii b in
  ((nat_of_ascii a =? 194) && ((n =? 133) || (n =? 160)))%nat.

Definition space3 (a b c : ascii) : bool :=
  let x := nat_of_ascii a in
  let y := nat_of_ascii b in
  let z := nat_of_ascii c in
  (((x =? 225) && (y =? 154) && (z =? 128))
   || ((x =? 226) && (y =? 128)
       && (((128 <=? z) && (z <=? 138))
           || (z =? 168) || (z =? 169) || (z =? 175)))
   || ((x =? 226) && (y =? 129) && (z =? 159))
   || ((x =? 227) && (y =? 128) && (z =? 128)))%nat.

(** [s[::-1]] on the bytes. *)
Fixpoint reverse (s : string) : string :=
  match s with
  | EmptyString => EmptyString
  | String a s' => reverse s' +:+ String a EmptyString
  end.

(** Characters of one, two or three bytes, given by [p1], [p2] and [p3],
    at the head of a string. *)
Section Heads.

Variable p1 : ascii → bool.
Variable p2 : ascii → ascii → bool.
Variable p3 : ascii → ascii → ascii → bool.

(** The string without the characters of the three kinds it starts
    with. *)
Fixpoint drop_heads (s : string) : string :=
  match s with
  | EmptyString => EmptyString
  | String a s1 =>
      if p1 a then drop_heads s1
      else
        match s1 with
        | EmptyString => s
        | String b s2 =>
            if p2 a b then drop_heads s2
            else
              match s2 with
              | EmptyString => s
              | String c s3 => if p3 a b c then drop_heads s3 else s
              end
        end
  end.

(** The string starts with a character of one of the three kinds. *)
Definition has_head (s : string) : bool :=
  match s with
  | EmptyString => false
  | String a s1 =>
      p1 a ||
      match s1 with
      | EmptyString => false
      | String b s2 =>
          p2 a b ||
          match s2 with
          | EmptyString => false
          | String c _ => p3 a b c
          end
      end
  end.

(** The string is made of characters of the three kinds only. *)
Inductive heads_only : string → Prop :=
  | heads_nil : heads_only EmptyString
  | heads_one a s :
      p1 a = true → heads_only s → heads_only (String a s)
  | heads_two a b s :
      p2 a b = true → heads_only s → heads_only (String a (String b s))
  | heads_three a b c s :
      p3 a b c = true → heads_only s →
      heads_only (String a (String b (String c s))).

End Heads.

(** [s.lstrip()] *)
Definition lstrip (s : string) : string := drop_heads space1 space2 space3 s.

(** [s.rstrip()]: the white space at the end is the white space at the
    head of the reversed bytes, each character with its bytes reversed. *)
Definition rstrip (s : string) : string :=
  reverse
    (drop_heads space1 (λ a b, space2 b a) (λ a b c, space3 c b a)
       (reverse s)).

(** [s.strip()] *)
Definition strip (s : string) : string := rstrip (lstrip s).

(** A string of white space only. *)
Definition white (s : string) : Prop := heads_only space1 space2 space3 s.

(** The string starts, or ends, with a character of white space. *)
Definition starts_white (s : string) : bool :=
  has_head space1 space2 space3 s.

Definition ends_white (s : string) : bool :=
  has_head space1 (λ a b, space2 b a) (λ a b c, space3 c b a) (reverse s).

(** [s.split(sep)] for a non-empty [sep]; the result is never empty. *)
Fixpoint split_from (sep : string) (skip : nat) (s : string) : list string :=
  match s with
  | EmptyString => [EmptyString]
  | String c s' =>
      match skip with
      | S k => split_from sep k s'
      | O =>
          if startswith sep s
          then EmptyString :: split_from sep (String.length sep - 1) s'
          else match split_from sep 0 s' with
               | h :: t => String c h :: t
               | [] => [String c EmptyString]
               end
      end
  end.

Definition split (sep s : string) : list string := split_from sep 0 s.

(** [sep.join(l)] *)
Fixpoint join (sep : string) (l : list string) : string :=
  match l with
  | [] => EmptyString
  | [x] => x
  | x :: t => x +:+ sep +:+ join sep t
  end.

(** [c in s] for a character *)
Fixpoint contains (c : ascii) (s : string) : bool :=
  match s with
  | EmptyString => false
  | String b s' => Ascii.eqb c b || contains c s'
  end.

End PyStr.

(** ** Data model *)

(** The values stored in a record: [None], a string (an id, a label, a
    text), or a list of strings ([other_parents], synonym phrases). *)
Inductive value : Type :=
  | VNone
  | VStr (s : string)
  | VList (l : list string).

#[global] Instance value_eq_dec : EqDecision value.
Proof. solve_decision. Defined.

(** Python truth value: [None], [''] and [[]] are false. *)
Definition truthy (v : value) : bool :=
  match v with
  | VNone => false
  | VStr s => negb (String.eqb s EmptyString)
  | VList l => negb (bool_decide (l = []))
  end.

(** A record of the table: a Python dict from field names to values. *)
Abbreviation dict := (gmap string value).

(** One binding of the ['tree'] query:
    [SELECT DISTINCT ?id ?label ?parent_id ?deprecated ?replaced_by].
    [?id] and [?parent_id] are bound by the mandatory patterns of the
    query, the other three by OPTIONAL patterns; an unbound variable is a
    key the row does not have. *)
Record tree_row : Type := {
  r_id : string;
  r_label : option string;
  r_parent_id : string;
  r_deprecated : option string;
  r_replaced_by : option string
}.

(** One row of the ['entity_text'] query:
    [SELECT DISTINCT ?label ?definition ?ui_label ?ui_definition]. *)
Record text_row : Type := {
  t_label : option string;
  t_definition : option string;
  t_ui_label : option string;
  t_ui_definition : option string
}.

(** One row of the ['entity_synonyms'] query: [row[field]] is [None] for
    an unbound variable. *)
Abbreviation synonym_row := (string → option string).

(** What the run reads and never changes: the answers of the graph to the
    three queries (the id stands for the URI [get_expanded_id(id)] bound to
    [?datum] or [?root]), the id normaliser [get_entity_id] and
    [struct['metadata']['prefix']] when the metadata has it. *)
Record onto_helper : Type := {
  tree_query : string → list tree_row;
  entity_text_query : string → list text_row;
  entity_synonyms_query : string → list synonym_row;
  get_entity_id : string → string;
  metadata_prefix : option string
}.

(** Modelled from the spec: [OntoHelper.SYNONYM_FIELDS] is declared in
    ontohelper.py, which is not part of the sources at hand.  The spec
    names the recognised categories "broad, exact, narrow, plain synonym;
    alternative term" and the field [exact_synonym]; the docstring of
    [do_entity_synonyms] lists the query variables
    [?synonym ?broad_synonym ?exact_synonym ?narrow_synonym
    ?alternative_term]. *)
Definition SYNONYM_FIELDS : list string :=
  ["synonym"; "broad_synonym"; "exact_synonym"; "narrow_synonym";
   "alternative_term"].

(** The queries sent to the graph, in the order they are sent. *)
Inductive query : Type :=
  | QTree (root : string)
  | QText (id : string)
  | QSynonyms (id : string).

#[global] Instance query_eq_dec : EqDecision query.
Proof. solve_decision. Defined.

(** The mutable state of a run. *)
Record state : Type := {
  specifications : gmap string dict;
  queries_sent : list query
}.

Definition initial_state : state :=
  {| specifications := ∅; queries_sent := [] |}.

(** The exceptions the embedded code can raise. *)
Inductive exn : Type :=
  | KeyError (key : string)
  | TypeError
  | AttributeError.

Inductive outcome (A : Type) : Type :=
  | Ok (a : A) (s : state)
  | Raise (e : exn).
Arguments Ok {A} a s.
Arguments Raise {A} e.

(** ** A state and exception monad *)

Definition M (A : Type) : Type := state → outcome A.

Definition ret {A} (a : A) : M A := λ s, Ok a s.

Definition bind {A B} (m : M A) (k : A → M B) : M B :=
  λ s, match m s with
       | Ok a s' => k a s'
       | Raise e => Raise e
       end.

Definition raise {A} (e : exn) : M A := λ _, Raise e.

Notation "'do' x <- m ; k" := (bind m (λ x, k))
  (at level 10, x name, m at level 100, k at level 200,
   format "'[v' 'do'  x  <-  m ; '/' k ']'").
Notation "m ;; k" := (bind m (λ _, k))
  (at level 100, k at level 200, right associativity).

Definition get_specifications : M (gmap string dict) :=
  λ s, Ok (specifications s) s.

Definition put_specifications (t : gmap string dict) : M unit :=
  λ s, Ok tt {| specifications := t; queries_sent := queries_sent s |}.

Definition send (q : query) : M unit :=
  λ s, Ok tt {| specifications := specifications s;
                queries_sent := queries_sent s ++ [q] |}.

(** [for x in l: body(x)] *)
Fixpoint for_each {A} (l : list A) (body : A → M unit) : M unit :=
  match l with
  | [] => ret tt
  | x :: rest => body x ;; for_each rest body
  end.

(** ** The helper methods of ontohelper.py *)

(** Modelled from the spec: [OntoHelper.set_entity_default] is defined in
    ontohelper.py, which is not part of the sources at hand.  The spec has
    the merger "upsert the record (create on first touch)", keeps
    [parent_id] "write-once" and says that stub insertion "never
    overwrites a fuller existing record": the default is stored when the
    table has no record for the key, and an existing record is kept. *)
Definition set_entity_default (key : string) (default : dict) : M unit :=
  do t <- get_specifications;
  match t !! key with
  | Some _ => ret tt
  | None => put_specifications (<[key := default]> t)
  end.

(** Modelled from the spec: [OntoHelper.get_parent_id] is defined in
    ontohelper.py, which is not part of the sources at hand.  The spec has
    the merger "record [parentId] in a pending parent-reference set": the
    parent id of a row is its [parent_id] field, [None] without one. *)
Definition get_parent_id (myDict : dict) : option string :=
  match myDict !! "parent_id" with
  | Some (VStr p) => Some p
  | _ => None
  end.

(** ** [Ontology.do_entity_text] *)

(** [row.asdict()]: the bound variables of the row. *)
Definition text_asdict (row : text_row) : dict :=
  let put (k : string) (o : option string) (d : dict) : dict :=
    match o with Some v => <[k := VStr v]> d | None => d end in
  put "label" (t_label row)
    (put "definition" (t_definition row)
       (put "ui_label" (t_ui_label row)
          (put "ui_definition" (t_ui_definition row) ∅))).

(** [d.update(other)]: the keys of [other] are written over [d]. *)
Definition dict_update (d other : dict) : dict := other ∪ d.

Section Merger.

Context (oh : onto_helper).

(** The body of [for row in rows]:
    [specifications[id].update(row.asdict())]. *)
Definition update_text (id : string) (row : text_row) : M unit :=
  let myDict := text_asdict row in
  do t <- get_specifications;
  match t !! id with
  | None => raise (KeyError id)
  | Some spec => put_specifications (<[id := dict_update spec myDict]> t)
  end.

Definition do_entity_text (id : string) : M unit :=
  send (QText id) ;;
  for_each (entity_text_query oh id) (update_text id).

(** ** [Ontology.do_entity_synonyms] *)

Definition dquote : string := String (ascii_of_nat 34) EmptyString.

(** The cleanup of one raw synonym value: the two characters backslash
    and n are replaced by a semicolon, the value is stripped, its double
    quotes are removed and it is split at the semicolons. *)
Definition synonym_phrases (raw : string) : list string :=
  PyStr.split ";"
    (PyStr.replace dquote EmptyString
       (PyStr.strip (PyStr.replace "\n" ";" raw))).


(** The body of [for field in SYNONYM_FIELDS] for one [field]; [spec] is
    the record [specifications[id]], which the loop changes in place.
    [spec[prefix_field] += phrases] needs a list on its left. *)
Definition add_synonyms (row : synonym_row) (field : string) (spec : dict)
  : exn + dict :=
  match row field with
  | None => inr spec
  | Some raw =>
      if truthy (VStr raw) then
        let phrases := synonym_phrases raw in
        if truthy (VList phrases) then
          let prefix_field := PyStr.replace_first "_" ":" field in
          match spec !! prefix_field with
          | None => inr (<[prefix_field := VList phrases]> spec)
          | Some (VList l) => inr (<[prefix_field := VList (l ++ phrases)]> spec)
          | Some _ => inl TypeError
          end
        else inr spec
      else inr spec
  end.

Fixpoint synonym_fields (fields : list string) (row : synonym_row)
  (spec : dict) : exn + dict :=
  match fields with
  | [] => inr spec
  | field :: rest =>
      match add_synonyms row field spec with
      | inl e => inl e
      | inr spec' => synonym_fields rest row spec'
      end
  end.

Fixpoint synonym_rows (rows : list synonym_row) (spec : dict) : exn + dict :=
  match rows with
  | [] => inr spec
  | row :: rest =>
      match synonym_fields SYNONYM_FIELDS row spec with
      | inl e => inl e
      | inr spec' => synonym_rows rest spec'
      end
  end.

Definition do_entity_synonyms (id : string) : M unit :=
  send (QSynonyms id) ;;
  do t <- get_specifications;
  match t !! id with
  | None => raise (KeyError id)
  | Some spec =>
      match synonym_rows (entity_synonyms_query oh id) spec with
      | inl e => raise e
      | inr spec' => put_specifications (<[id := spec']> t)
      end
  end.

(** ** [Ontology.do_entity] *)

(** A row of the tree query as the dict handed to [do_entity]. *)
Definition tree_asdict (row : tree_row) : dict :=
  let put (k : string) (o : option string) (d : dict) : dict :=
    match o with Some v => <[k := VStr v]> d | None => d end in
  put "label" (r_label row)
    (put "deprecated" (r_deprecated row)
       (put "replaced_by" (r_replaced_by row)
          (<["id" := VStr (r_id row)]>
             (<["parent_id" := VStr (r_parent_id row)]> ∅)))).

(** Lines 273 to 283: [myDict] after the id, the ontology prefix and the
    replacement id have been written into it. *)
Definition prepare_entity (row : tree_row) : dict :=
  let myDict := <["id" := VStr (r_id row)]> (tree_asdict row) in
  let myDict :=
    match metadata_prefix oh with
    | Some p => <["ontology" := VStr p]> myDict
    | None => myDict
    end in
  match myDict !! "replaced_by" with
  | Some (VStr r) => <["replaced_by" := VStr (get_entity_id oh r)]> myDict
  | _ => myDict
  end.

(** Lines 287 to 294: a term that is in the table already gets the parent
    of this row among its [other_parents]. *)
Definition track_other_parent (id : string) (myDict : dict) : M unit :=
  do t <- get_specifications;
  match t !! id with
  | None => ret tt
  | Some existing =>
      match myDict !! "parent_id" with
      | None => raise (KeyError "parent_id")
      | Some parent_id =>
          match existing !! "parent_id" with
          | None => raise (KeyError "parent_id")
          | Some existing_p_id =>
              if truthy parent_id && truthy existing_p_id
                 && negb (bool_decide (parent_id = existing_p_id))
              then
                let existing :=
                  match existing !! "other_parents" with
                  | None => <["other_parents" := VList []]> existing
                  | Some _ => existing
                  end in
                match existing !! "other_parents", parent_id with
                | Some (VList l), VStr p =>
                    put_specifications
                      (<[id := <["other_parents" := VList (l ++ [p])]> existing]> t)
                | _, _ => raise AttributeError
                end
              else ret tt
          end
      end
  end.

(** [do_entity] returns what [myDict] holds when the call is over: the
    caller reads it again, and when the id was new [myDict] is the very
    object stored in the table, which both enrichments change in place. *)
Definition do_entity (row : tree_row) : M dict :=
  let id := r_id row in
  let myDict := prepare_entity row in
  do before <- get_specifications;
  track_other_parent id myDict ;;
  set_entity_default id myDict ;;
  do_entity_text id ;;
  do_entity_synonyms id ;;
  do after <- get_specifications;
  ret (match before !! id, after !! id with
       | None, Some stored => stored
       | _, _ => myDict
       end).

(** ** [Ontology.do_entities] *)

(** The first loop of [do_entities]; [parents] is the list it builds. *)
Fixpoint first_pass (table : list tree_row) (parents : list string)
  : M (list string) :=
  match table with
  | [] => ret parents
  | row :: rest =>
      do myDict <- do_entity row;
      let parents :=
        match get_parent_id myDict with
        | Some parent_id =>
            if truthy (VStr parent_id) then
              if bool_decide (parent_id ∈ parents) then parents
              else (parents ++ [parent_id])%list
            else parents
        | None => parents
        end in
      first_pass rest parents
  end.

(** The barebones record of a parent that is no term of the table. *)
Definition stub (parent_id : string) : dict :=
  <["id" := VStr parent_id]> (<["datatype" := VStr "entity"]> ∅).

(** The body of the second loop of [do_entities]. *)
Definition backfill_parent (parent_id : string) : M unit :=
  do t <- get_specifications;
  match t !! parent_id with
  | None => set_entity_default parent_id (stub parent_id)
  | Some _ => ret tt
  end.

(** The second loop of [do_entities]. *)
Definition second_pass (parents : list string) : M unit :=
  for_each parents backfill_parent.

Definition do_entities (table : list tree_row) : M unit :=
  do parents <- first_pass table [];
  second_pass parents.

(** ** The loop over the roots in [Ontology.__main__] *)

Definition main_roots (roots : list string) : M unit :=
  for_each roots (λ term_id,
    send (QTree term_id) ;;
    do_entities (tree_query oh term_id)).

End Merger.

(** ** Reference functions on the list of rows *)

(** The fields the two enrichments can write. *)
Definition text_keys : list string :=
  ["label"; "definition"; "ui_label"; "ui_definition"].

Definition synonym_keys : list string :=
  map (PyStr.replace_first "_" ":") SYNONYM_FIELDS.

Definition enriched_keys : list string := text_keys ++ synonym_keys.

(** The fields a row of the tree query can bring into a record. *)
Definition row_keys : list string :=
  ["id"; "parent_id"; "label"; "deprecated"; "replaced_by"; "ontology"].

(** The list held by a field, empty when the field is absent. *)
Definition list_at (d : dict) (k : string) : list string :=
  match d !! k with
  | Some (VList l) => l
  | _ => []
  end.

Definition list_or_absent (d : dict) (k : string) : Prop :=
  match d !! k with
  | None | Some (VList _) => True
  | Some _ => False
  end.

(** No synonym field of the record holds anything but a list. *)
Definition syn_ok (d : dict) : Prop :=
  ∀ k, k ∈ synonym_keys → list_or_absent d k.

(** The raw value of a category in a synonym row when it passes
    [if row[field]]. *)
Definition raw_value (row : synonym_row) (field : string) : option string :=
  match row field with
  | Some raw => if truthy (VStr raw) then Some raw else None
  | None => None
  end.

(** The phrases a row adds under the key [k]. *)
Definition appended (fields : list string) (row : synonym_row) (k : string)
  : list string :=
  flat_map (λ field,
    if bool_decide (PyStr.replace_first "_" ":" field = k)
    then match raw_value row field with
         | Some raw => synonym_phrases raw
         | None => []
         end
    else []) fields.

Definition appended_rows (rows : list synonym_row) (k : string) : list string :=
  flat_map (λ row, appended SYNONYM_FIELDS row k) rows.

(** The value of a list field after [app] has been added to [old]. *)
Definition merge_val (old : option value) (app : list string) : option value :=
  match app with
  | [] => old
  | _ =>
      Some (VList (match old with Some (VList l) => l | _ => [] end ++ app))
  end.

(** The rows of a table whose subject is [id], in the order of the table. *)
Definition rows_of (id : string) (rows : list tree_row) : list tree_row :=
  filter (λ r, r_id r = id) rows.

(** The test of line 291 on two parent ids. *)
Definition other_parent (first p : string) : bool :=
  truthy (VStr p) && truthy (VStr first) && negb (bool_decide (VStr p = VStr first)).

(** The additional parents of a term whose first row has the parent
    [first] and whose later rows are [later]. *)
Definition later_parents (first : string) (later : list tree_row) : list string :=
  filter (λ p, other_parent first p = true) (map r_parent_id later).

(** The record of a term that is in the table already, after lines 287
    to 294 have seen a later row with the parent [p]. *)
Definition track_record (p : string) (existing : dict) : dict :=
  match existing !! "parent_id" with
  | Some ep =>
      if truthy (VStr p) && truthy ep && negb (bool_decide (VStr p = ep))
      then <["other_parents" :=
               VList (list_at existing "other_parents" ++ [p])]> existing
      else existing
  | None => existing
  end.

(** What the record of the row's id is before the enrichments. *)
Definition merged (oh : onto_helper) (row : tree_row) (old : option dict)
  : dict :=
  match old with
  | None => prepare_entity oh row
  | Some existing => track_record (r_parent_id row) existing
  end.

Definition others_val (l : list string) : option value :=
  match l with
  | [] => None
  | _ => Some (VList l)
  end.

(** The list [parents] that the first loop of [do_entities] builds. *)
Fixpoint collect_parents (rows : list tree_row) (parents : list string)
  : list string :=
  match rows with
  | [] => parents
  | r :: rest =>
      collect_parents rest
        (if truthy (VStr (r_parent_id r)) then
           if bool_decide (r_parent_id r ∈ parents) then parents
           else parents ++ [r_parent_id r]
         else parents)
  end.

(** What the first loop of [do_entities] has made of the rows it has
    seen: a record for each subject, with the fields of its first row, and
    the parents of its later rows in [other_parents]. *)
Definition table_of (oh : onto_helper) (rows : list tree_row)
  (t : gmap string dict) : Prop :=
  ∀ id,
    match rows_of id rows with
    | [] => t !! id = None
    | r0 :: later =>
        ∃ d : dict,
          t !! id = Some d ∧ syn_ok d ∧
          d !! "other_parents" =
            others_val (later_parents (r_parent_id r0) later) ∧
          ∀ k, k ∉ enriched_keys → k ≠ "other_parents" →
               d !! k = prepare_entity oh r0 !! k
    end.

(** The table when [do_entities] is over: the parents that are no subject
    of a row have their stub. *)
Definition final_table (oh : onto_helper) (rows : list tree_row)
  (t : gmap string dict) : Prop :=
  ∀ id,
    match rows_of id rows with
    | [] =>
        t !! id =
          if bool_decide (id ∈ collect_parents rows []) then Some (stub id)
          else None
    | r0 :: later =>
        ∃ d : dict,
          t !! id = Some d ∧ syn_ok d ∧
          d !! "other_parents" =
            others_val (later_parents (r_parent_id r0) later) ∧
          ∀ k, k ∉ enriched_keys → k ≠ "other_parents" →
               d !! k = prepare_entity oh r0 !! k
    end.

(** The queries that the rows of a table cause, in order. *)
Definition row_queries (rows : list tree_row) : list query :=
  flat_map (λ r, [QText (r_id r); QSynonyms (r_id r)]) rows.

(** ** Concrete graphs and tables *)

(** A graph that answers no query with a row. *)
Definition silent_helper : onto_helper :=
  {| tree_query := λ _, [];
     entity_text_query := λ _, [];
     entity_synonyms_query := λ _, [];
     get_entity_id := λ s, s;
     metadata_prefix := None |}.

(** A row [(id, parent_id, label, null, null)]. *)
Definition labelled_row (id parent_id label : string) : tree_row :=
  {| r_id := id; r_label := Some label; r_parent_id := parent_id;
     r_deprecated := None; r_replaced_by := None |}.

(** A row [(id, parent_id)] without optional fields. *)
Definition bare_row (id parent_id : string) : tree_row :=
  {| r_id := id; r_label := None; r_parent_id := parent_id;
     r_deprecated := None; r_replaced_by := None |}.

(** The rows of the end-to-end scenario. *)
Definition scenario_rows : list tree_row :=
  [labelled_row "T1" "R" "Term One";
   labelled_row "T2" "R" "Term Two";
   labelled_row "T1" "R2" "Term One"].

(** A graph whose synonym query answers one row, with the raw value [raw]
    in the category [field] and nothing in the others. *)
Definition synonym_helper (field raw : string) : onto_helper :=
  {| tree_query := λ _, [];
     entity_text_query := λ _, [];
     entity_synonyms_query := λ _,
       [λ f, if bool_decide (f = field) then Some raw else None];
     get_entity_id := λ s, s;
     metadata_prefix := None |}.

(** A table with the single record of the term [id]. *)
Definition single_record (id : string) (d : dict) : state :=
  {| specifications := {[ id := d ]}; queries_sent := [] |}.

(** A graph with two roots: under the first the term [A] with the parent
    [P], under the second the term [P] itself with the parent [Q]. *)
Definition two_roots_helper : onto_helper :=
  {| tree_query := λ root,
       if bool_decide (root = "root1") then [bare_row "A" "P"]
       else if bool_decide (root = "root2") then [bare_row "P" "Q"]
       else [];
     entity_text_query := λ _, [];
     entity_synonyms_query := λ _, [];
     get_entity_id := λ s, s;
     metadata_prefix := None |}.

(** The UTF-8 bytes of U+00A0, the no-break space, and of U+2003, the em
    space. *)
Definition nbsp : string :=
  String (ascii_of_nat 194) (String (ascii_of_nat 160) EmptyString).

Definition em_space : string :=
  String (ascii_of_nat 226)
    (String (ascii_of_nat 128) (String (ascii_of_nat 131) EmptyString)).

(** The field [k] of the record of [id] in an outcome. *)
Definition field_of {A} (o : outcome A) (id k : string) : option value :=
  match o with
  | Ok _ s => specifications s !! id ≫= (λ d : dict, d !! k)
  | Raise _ => None
  end.

(** ** Further reference functions *)

(** The record after the loop of [do_entity_text] has updated it with the
    rows of the text query, one after the other. *)
Definition text_updates (rows : list text_row) (spec : dict) : dict :=
  fold_left (λ d row, dict_update d (text_asdict row)) rows spec.

(** The value a variable has in the last row that binds it. *)
Fixpoint last_bound {A} (sel : A → option string) (rows : list A)
  : option string :=
  match rows with
  | [] => None
  | row :: rest =>
      match last_bound sel rest with
      | Some v => Some v
      | None => sel row
      end
  end.

(** What the first loop of [do_entities] has made of the synonym fields:
    the phrases the graph has for the id, once for each row of the id. *)
Definition synonyms_of (oh : onto_helper) (rows : list tree_row)
  (t : gmap string dict) : Prop :=
  ∀ id k, k ∈ synonym_keys →
    match rows_of id rows with
    | [] => True
    | r0 :: later =>
        ∃ d : dict,
          t !! id = Some d ∧
          d !! k =
            merge_val None
              (concat (replicate (S (length later))
                         (appended_rows (entity_synonyms_query oh id) k)))
    end.

(** A graph whose synonym query answers, for the id [A] and for no other
    id, one row with the raw value [raw] in the category [field]. *)
Definition synonyms_of_A (field raw : string) : onto_helper :=
  {| tree_query := λ _, [];
     entity_text_query := λ _, [];
     entity_synonyms_query := λ id,
       if bool_decide (id = "A")
       then [λ f, if bool_decide (f = field) then Some raw else None]
       else [];
     get_entity_id := λ s, s;
     metadata_prefix := None |}.


(** A record that [do_entity] can merge a later row into: it has a
    [parent_id], and its list fields hold lists. *)
Definition full_record (d : dict) : Prop :=
  is_Some (d !! "parent_id") ∧ list_or_absent d "other_parents" ∧ syn_ok d.



(** A graph whose text query answers [rows] for every id and whose other
    queries answer nothing. *)
Definition text_helper (rows : list text_row) : onto_helper :=
  {| tree_query := λ _, [];
     entity_text_query := λ _, rows;
     entity_synonyms_query := λ _, [];
     get_entity_id := λ s, s;
     metadata_prefix := None |}.

(** A row of the text query that binds [?label] and [?definition] as
    given and leaves the two other variables unbound. *)
Definition label_row (label definition : option string) : text_row :=
  {| t_label := label; t_definition := definition;
     t_ui_label := None; t_ui_definition := None |}.

(** The record of a term of which only the id and the parent are known. *)
Definition record_with_parent (id parent_id : string) : dict :=
  <["id" := VStr id]> (<["parent_id" := VStr parent_id]> ∅).

(** * Properties *)

Ltac split_keys H :=
  repeat (apply not_elem_of_cons in H as [? H]).

(** A membership in an explicit list of keys that cannot hold. *)
Ltac no_such_key H :=
  repeat (apply elem_of_cons in H as [H|H]; [done|]);
  by apply elem_of_nil in H.

(** ** String methods *)

Module PyStrFacts.
Import PyStr.

Lemma split_from_nonempty sep k s : split_from sep k s ≠ [].
Proof.
  revert k. induction s as [|c s IH]; intros k; simpl; [done|].
  destruct k; [|apply IH].
  destruct (startswith sep (String c s)); [done|].
  destruct (split_from sep 0 s); done.
Qed.

Lemma split_nonempty sep s : split sep s ≠ [].
Proof. apply split_from_nonempty. Qed.

Lemma join_cons_nonempty sep x l :
  l ≠ [] → join sep (x :: l) = x +:+ sep +:+ join sep l.
Proof. destruct l; [done|]. reflexivity. Qed.

(** Splitting at a one-character separator and joining again gives the
    string back. *)
Lemma join_split_char c s :
  join (String c EmptyString) (split (String c EmptyString) s) = s.
Proof.
  unfold split. induction s as [|a s IH]; [reflexivity|].
  cbn [split_from startswith String.length Nat.sub].
  destruct (Ascii.eqb_spec c a) as [->|Hne].
  - rewrite join_cons_nonempty by apply split_from_nonempty.
    simpl. by rewrite IH.
  - pose proof (split_from_nonempty (String c EmptyString) 0 s) as Hs.
    destruct (split_from (String c EmptyString) 0 s) as [|h t]; [done|].
    destruct t as [|h' t].
    + simpl in *. by rewrite IH.
    + change (join (String c EmptyString) (String a h :: h' :: t))
        with (String a (join (String c EmptyString) (h :: h' :: t))).
      by rewrite IH.
Qed.

(** No piece of a split at a one-character separator holds the
    separator. *)
Lemma split_char_no_sep c s :
  Forall (λ p, contains c p = false) (split (String c EmptyString) s).
Proof.
  unfold split. induction s as [|a s IH]; [by repeat constructor|].
  cbn [split_from startswith String.length Nat.sub].
  destruct (Ascii.eqb_spec c a) as [->|Hne].
  - constructor; [done|apply IH].
  - destruct (split_from (String c EmptyString) 0 s) as [|h t].
    + repeat constructor. simpl. by destruct (Ascii.eqb_spec c a).
    + inversion IH as [|? ? Hh Ht]; subst. constructor; [|done].
      simpl. rewrite Hh. by destruct (Ascii.eqb_spec c a).
Qed.

(** A character of a piece is a character of the string that was split. *)
Lemma split_char_contains sep c s :
  contains c s = false →
  Forall (λ p, contains c p = false) (split (String sep EmptyString) s).
Proof.
  unfold split. induction s as [|a s IH]; intros Hc; [by repeat constructor|].
  simpl in Hc. apply orb_false_iff in Hc as [Hca Hcs].
  cbn [split_from startswith String.length Nat.sub].
  destruct (Ascii.eqb sep a).
  - constructor; [done|by apply IH].
  - specialize (IH Hcs).
    destruct (split_from (String sep EmptyString) 0 s) as [|h t].
    + repeat constructor. simpl. by rewrite Hca.
    + inversion IH as [|? ? Hh Ht]; subst. constructor; [|done].
      simpl. by rewrite Hca, Hh.
Qed.

(** Removing a character leaves none of it. *)
Lemma replace_char_removed c s :
  contains c (replace (String c EmptyString) EmptyString s) = false.
Proof.
  unfold replace. induction s as [|a s IH]; [done|].
  cbn [replace_from startswith String.length Nat.sub].
  destruct (Ascii.eqb_spec c a) as [->|Hne]; simpl.
  - apply IH.
  - rewrite IH. by destruct (Ascii.eqb_spec c a).
Qed.

(** *** Bytes in reverse *)

Lemma append_nil_r s : s +:+ EmptyString = s.
Proof.
  induction s as [|a s IH]; [done|].
  change (String a (s +:+ EmptyString) = String a s). by rewrite IH.
Qed.

Lemma append_assoc s1 s2 s3 : (s1 +:+ s2) +:+ s3 = s1 +:+ (s2 +:+ s3).
Proof.
  induction s1 as [|a s1 IH]; [done|].
  change (String a ((s1 +:+ s2) +:+ s3) = String a (s1 +:+ (s2 +:+ s3))).
  by rewrite IH.
Qed.

Lemma reverse_append s1 s2 :
  reverse (s1 +:+ s2) = reverse s2 +:+ reverse s1.
Proof.
  induction s1 as [|a s1 IH].
  - change (reverse s2 = reverse s2 +:+ EmptyString).
    by rewrite append_nil_r.
  - change (reverse (s1 +:+ s2) +:+ String a EmptyString =
            reverse s2 +:+ (reverse s1 +:+ String a EmptyString)).
    by rewrite IH, append_assoc.
Qed.

Lemma reverse_involutive s : reverse (reverse s) = s.
Proof.
  induction s as [|a s IH]; [done|]. cbn [reverse].
  rewrite reverse_append, IH. done.
Qed.

(** *** White space at the two ends *)

Section HeadFacts.

Variable p1 : ascii → bool.
Variable p2 : ascii → ascii → bool.
Variable p3 : ascii → ascii → ascii → bool.

(** What [drop_heads] removes is made of the characters it looks for, and
    what it leaves starts with none of them. *)
Lemma drop_heads_spec s :
  ∃ w, heads_only p1 p2 p3 w ∧
       s = w +:+ drop_heads p1 p2 p3 s ∧
       has_head p1 p2 p3 (drop_heads p1 p2 p3 s) = false.
Proof.
  assert (∀ (n : nat) (s : string), (String.length s ≤ n)%nat →
            ∃ w, heads_only p1 p2 p3 w ∧
                 s = w +:+ drop_heads p1 p2 p3 s ∧
                 has_head p1 p2 p3 (drop_heads p1 p2 p3 s) = false) as H;
    [|by apply (H (String.length s))].
  clear s. induction n as [|n IH]; intros s Hlen.
  { destruct s; [|simpl in Hlen; lia].
    exists EmptyString. split; [constructor|done]. }
  destruct s as [|a s1].
  { exists EmptyString. split; [constructor|done]. }
  cbn [String.length] in Hlen. cbn [drop_heads].
  destruct (p1 a) eqn:E1.
  { destruct (IH s1) as (w & Hw & Heq & Hh); [lia|].
    exists (String a w). split; [by constructor|].
    split; [|done]. exact (f_equal (String a) Heq). }
  destruct s1 as [|b s2].
  { exists EmptyString. split; [constructor|]. split; [done|].
    cbn [has_head]. by rewrite E1. }
  cbn [String.length] in Hlen.
  destruct (p2 a b) eqn:E2.
  { destruct (IH s2) as (w & Hw & Heq & Hh); [lia|].
    exists (String a (String b w)). split; [by constructor|].
    split; [|done]. exact (f_equal (λ x, String a (String b x)) Heq). }
  destruct s2 as [|c s3].
  { exists EmptyString. split; [constructor|]. split; [done|].
    cbn [has_head]. by rewrite E1, E2. }
  cbn [String.length] in Hlen.
  destruct (p3 a b c) eqn:E3.
  { destruct (IH s3) as (w & Hw & Heq & Hh); [lia|].
    exists (String a (String b (String c w))). split; [by constructor|].
    split; [|done].
    exact (f_equal (λ x, String a (String b (String c x))) Heq). }
  exists EmptyString. split; [constructor|]. split; [done|].
  cbn [has_head]. by rewrite E1, E2, E3.
Qed.

Lemma heads_only_append w1 w2 :
  heads_only p1 p2 p3 w1 → heads_only p1 p2 p3 w2 →
  heads_only p1 p2 p3 (w1 +:+ w2).
Proof.
  intros H1 H2. induction H1; simpl; [done| | |]; by constructor.
Qed.

(** A string that starts with one of the characters still does when it
    is made longer. *)
Lemma has_head_append s w :
  has_head p1 p2 p3 s = true → has_head p1 p2 p3 (s +:+ w) = true.
Proof.
  destruct s as [|a [|b [|c s]]]; simpl; [done| | |done].
  - by destruct (p1 a).
  - by destruct (p1 a), (p2 a b).
Qed.

End HeadFacts.

(** A string of characters with their bytes reversed, in reverse, is a
    string of the characters. *)
Lemma heads_only_reverse p1 p2 p3 w :
  heads_only p1 (λ a b, p2 b a) (λ a b c, p3 c b a) w →
  heads_only p1 p2 p3 (reverse w).
Proof.
  intros H. induction H as [|a s Ha _ IH|a b s Hab _ IH|a b c s Habc _ IH];
    cbn [reverse].
  - constructor.
  - apply heads_only_append; [done|]. by repeat constructor.
  - rewrite append_assoc. apply heads_only_append; [done|].
    apply (heads_two _ _ _ b a EmptyString); [done|constructor].
  - rewrite !append_assoc. apply heads_only_append; [done|].
    apply (heads_three _ _ _ c b a EmptyString); [done|constructor].
Qed.

Lemma lstrip_spec s :
  ∃ w, white w ∧ s = w +:+ lstrip s ∧ starts_white (lstrip s) = false.
Proof. apply drop_heads_spec. Qed.

Lemma rstrip_spec s :
  ∃ w, white w ∧ s = rstrip s +:+ w ∧ ends_white (rstrip s) = false.
Proof.
  destruct (drop_heads_spec space1 (λ a b, space2 b a) (λ a b c, space3 c b a)
              (reverse s)) as (w & Hw & Heq & Hh).
  exists (reverse w). split; [by apply heads_only_reverse|]. split.
  - unfold rstrip. rewrite <- reverse_append, <- Heq.
    by rewrite reverse_involutive.
  - unfold ends_white, rstrip. by rewrite reverse_involutive.
Qed.

(** [strip] removes white space at the two ends, and all of it: the
    string is what [strip] leaves between two strings of white space, and
    what it leaves neither starts nor ends with white space. *)
Lemma strip_spec s :
  ∃ w1 w2,
    white w1 ∧ white w2 ∧
    s = w1 +:+ strip s +:+ w2 ∧
    starts_white (strip s) = false ∧
    ends_white (strip s) = false.
Proof.
  destruct (lstrip_spec s) as (w1 & Hw1 & Heq1 & Hs).
  destruct (rstrip_spec (lstrip s)) as (w2 & Hw2 & Heq2 & He).
  exists w1, w2. split; [done|]. split; [done|].
  fold (strip s) in Heq2, He. split; [by rewrite <- Heq2|].
  split; [|done].
  destruct (starts_white (strip s)) eqn:E; [|done].
  apply (has_head_append _ _ _ _ w2) in E.
  rewrite <- Heq2 in E. unfold starts_white in Hs. congruence.
Qed.

End PyStrFacts.

(** ** Records *)

Lemma merge_val_app o a b :
  merge_val (merge_val o a) b = merge_val o (a ++ b).
Proof.
  destruct a as [|x a]; [done|].
  destruct b as [|y b]; simpl.
  - by rewrite app_nil_r.
  - by rewrite <- app_assoc.
Qed.

Lemma list_or_absent_merge (d d' : dict) k app :
  d' !! k = merge_val (d !! k) app →
  list_or_absent d k → list_or_absent d' k.
Proof.
  unfold list_or_absent. intros ->. destruct app; simpl; [done|].
  by destruct (d !! k) as [[]|].
Qed.

Lemma synonym_keys_elem f :
  f ∈ SYNONYM_FIELDS → PyStr.replace_first "_" ":" f ∈ synonym_keys.
Proof.
  intros H. unfold synonym_keys. apply list_elem_of_In, in_map.
  by apply list_elem_of_In.
Qed.

Lemma appended_outside fields row k :
  (∀ f, f ∈ fields → PyStr.replace_first "_" ":" f ≠ k) →
  appended fields row k = [].
Proof.
  unfold appended. induction fields as [|f fields IH]; intros H; [done|].
  simpl. rewrite bool_decide_eq_false_2 by (apply H; left).
  apply IH. intros f' Hf'. apply H. by right.
Qed.

Lemma appended_rows_outside rows k :
  k ∉ synonym_keys → appended_rows rows k = [].
Proof.
  intros Hk. induction rows as [|row rows IH]; [done|].
  change (appended_rows (row :: rows) k)
    with (appended SYNONYM_FIELDS row k ++ appended_rows rows k).
  rewrite IH, appended_outside; [done|].
  intros f Hf <-. by apply Hk, synonym_keys_elem.
Qed.

(** ** The synonym enrichment *)

Section SynonymFacts.

Context (oh : onto_helper).

Lemma add_synonyms_lookup row f (spec : dict) :
  list_or_absent spec (PyStr.replace_first "_" ":" f) →
  ∃ spec' : dict, add_synonyms row f spec = inr spec' ∧
    ∀ k, spec' !! k = merge_val (spec !! k) (appended [f] row k).
Proof.
  intros Hok. unfold add_synonyms, appended, raw_value. cbn [flat_map].
  destruct (row f) as [raw|]; cycle 1.
  { exists spec. split; [done|]. intros k. by case_bool_decide. }
  destruct (truthy (VStr raw)); cycle 1.
  { exists spec. split; [done|]. intros k. by case_bool_decide. }
  pose proof (PyStrFacts.split_nonempty ";"
    (PyStr.replace dquote EmptyString
       (PyStr.strip (PyStr.replace "\n" ";" raw)))) as Hne.
  fold (synonym_phrases raw) in Hne.
  assert (truthy (VList (synonym_phrases raw)) = true) as ->.
  { simpl. by rewrite bool_decide_eq_false_2. }
  unfold list_or_absent in Hok.
  destruct (spec !! PyStr.replace_first "_" ":" f) as [[]|] eqn:E; try done.
  - eexists. split; [done|]. intros k. rewrite app_nil_r.
    case_bool_decide as Hk.
    + subst k. rewrite lookup_insert_eq, E.
      destruct (synonym_phrases raw); done.
    + by rewrite lookup_insert_ne.
  - eexists. split; [done|]. intros k. rewrite app_nil_r.
    case_bool_decide as Hk.
    + subst k. rewrite lookup_insert_eq, E.
      destruct (synonym_phrases raw); done.
    + by rewrite lookup_insert_ne.
Qed.

Lemma synonym_fields_lookup fields row (spec : dict) :
  (∀ f, f ∈ fields → list_or_absent spec (PyStr.replace_first "_" ":" f)) →
  ∃ spec' : dict, synonym_fields fields row spec = inr spec' ∧
    ∀ k, spec' !! k = merge_val (spec !! k) (appended fields row k).
Proof.
  revert spec. induction fields as [|f fields IH]; intros spec Hok.
  { exists spec. by split. }
  destruct (add_synonyms_lookup row f spec) as (spec1 & E1 & H1).
  { apply Hok. left. }
  destruct (IH spec1) as (spec2 & E2 & H2).
  { intros f' Hf'. eapply list_or_absent_merge; [apply H1|].
    apply Hok. by right. }
  exists spec2. cbn [synonym_fields]. rewrite E1. split; [exact E2|].
  intros k. rewrite H2, H1, merge_val_app.
  unfold appended. cbn [flat_map]. by rewrite app_nil_r.
Qed.

Lemma synonym_rows_lookup rows (spec : dict) :
  syn_ok spec →
  ∃ spec' : dict, synonym_rows rows spec = inr spec' ∧
    ∀ k, spec' !! k = merge_val (spec !! k) (appended_rows rows k).
Proof.
  revert spec. induction rows as [|row rows IH]; intros spec Hok.
  { exists spec. by split. }
  destruct (synonym_fields_lookup SYNONYM_FIELDS row spec) as (spec1 & E1 & H1).
  { intros f Hf. by apply Hok, synonym_keys_elem. }
  destruct (IH spec1) as (spec2 & E2 & H2).
  { intros k Hk. eapply list_or_absent_merge; [apply H1|]. by apply Hok. }
  exists spec2. cbn [synonym_rows]. rewrite E1. split; [exact E2|].
  intros k. rewrite H2, H1, merge_val_app. done.
Qed.

(** [do_entity_synonyms] on an id of the table whose synonym fields hold
    lists: it sends one query and appends to the lists of the record. *)
Lemma do_entity_synonyms_ok id st (spec : dict) :
  specifications st !! id = Some spec →
  syn_ok spec →
  ∃ spec' : dict,
    do_entity_synonyms oh id st =
      Ok tt {| specifications := <[id := spec']> (specifications st);
               queries_sent := queries_sent st ++ [QSynonyms id] |} ∧
    ∀ k, spec' !! k =
         merge_val (spec !! k) (appended_rows (entity_synonyms_query oh id) k).
Proof.
  intros Hid Hok.
  destruct (synonym_rows_lookup (entity_synonyms_query oh id) spec Hok)
    as (spec' & E & H).
  exists spec'. split; [|done].
  unfold do_entity_synonyms, bind, send, get_specifications. simpl.
  rewrite Hid, E. done.
Qed.

End SynonymFacts.

(** ** The rows as records *)

Section RowFacts.

Context (oh : onto_helper).

Lemma text_asdict_outside row k :
  k ∉ text_keys → text_asdict row !! k = None.
Proof.
  intros H. unfold text_keys in H. split_keys H.
  unfold text_asdict.
  destruct (t_label row), (t_definition row), (t_ui_label row),
    (t_ui_definition row);
    repeat (rewrite lookup_insert_ne by done); apply lookup_empty.
Qed.

Lemma prepare_entity_outside row k :
  k ∉ row_keys → prepare_entity oh row !! k = None.
Proof.
  intros H. unfold row_keys in H. split_keys H.
  unfold prepare_entity, tree_asdict.
  destruct (r_label row), (r_deprecated row), (r_replaced_by row),
    (metadata_prefix oh); simplify_map_eq; done.
Qed.

Lemma prepare_entity_parent_id row :
  prepare_entity oh row !! "parent_id" = Some (VStr (r_parent_id row)).
Proof.
  unfold prepare_entity, tree_asdict.
  destruct (r_label row), (r_deprecated row), (r_replaced_by row),
    (metadata_prefix oh); simplify_map_eq; done.
Qed.

Lemma prepare_entity_id row :
  prepare_entity oh row !! "id" = Some (VStr (r_id row)).
Proof.
  unfold prepare_entity, tree_asdict.
  destruct (r_label row), (r_deprecated row), (r_replaced_by row),
    (metadata_prefix oh); simplify_map_eq; done.
Qed.

Lemma prepare_entity_syn_ok row : syn_ok (prepare_entity oh row).
Proof.
  intros k Hk. unfold list_or_absent.
  rewrite prepare_entity_outside; [done|].
  intros Hin. revert Hk. unfold synonym_keys. simpl.
  unfold row_keys in Hin.
  repeat (apply elem_of_cons in Hin as [->|Hin]);
    try (by apply elem_of_nil in Hin);
    intros Hk; repeat (apply elem_of_cons in Hk as [Hk|Hk]; [done|]);
    by apply elem_of_nil in Hk.
Qed.

End RowFacts.

(** ** The text enrichment and [do_entity] *)

Section EntityFacts.

Context (oh : onto_helper).

Lemma text_rows_ok id rows (t : gmap string dict) qs (spec : dict) :
  t !! id = Some spec →
  ∃ spec' : dict,
    for_each rows (update_text id)
      {| specifications := t; queries_sent := qs |}
    = Ok tt {| specifications := <[id := spec']> t; queries_sent := qs |} ∧
    ∀ k, k ∉ text_keys → spec' !! k = spec !! k.
Proof.
  revert t spec. induction rows as [|row rows IH]; intros t spec Hid.
  { exists spec. split; [|done].
    cbn [for_each]. unfold ret. by rewrite insert_id. }
  destruct (IH (<[id := dict_update spec (text_asdict row)]> t)
              (dict_update spec (text_asdict row))) as (spec' & E & H).
  { apply lookup_insert_eq. }
  exists spec'. split.
  - cbn [for_each]. unfold bind at 1.
    replace (update_text id row {| specifications := t; queries_sent := qs |})
      with (Ok tt {| specifications :=
                       <[id := dict_update spec (text_asdict row)]> t;
                     queries_sent := qs |}).
    + rewrite E. by rewrite insert_insert_eq.
    + unfold update_text, bind, get_specifications, put_specifications.
      cbn [specifications queries_sent]. by rewrite Hid.
  - intros k Hk. rewrite (H k Hk). unfold dict_update.
    rewrite lookup_union_r; [done|]. by apply text_asdict_outside.
Qed.

(** [do_entity_text] on an id of the table: one query, and only the four
    text fields of the record can change. *)
Lemma do_entity_text_ok id st (spec : dict) :
  specifications st !! id = Some spec →
  ∃ spec' : dict,
    do_entity_text oh id st =
      Ok tt {| specifications := <[id := spec']> (specifications st);
               queries_sent := queries_sent st ++ [QText id] |} ∧
    ∀ k, k ∉ text_keys → spec' !! k = spec !! k.
Proof.
  intros Hid.
  destruct (text_rows_ok id (entity_text_query oh id) (specifications st)
              (queries_sent st ++ [QText id]) spec Hid) as (spec' & E & H).
  exists spec'. split; [|done].
  unfold do_entity_text. unfold bind at 1. unfold send. exact E.
Qed.

(** Without rows from the text query [do_entity_text] never looks the id
    up. *)
Lemma do_entity_text_no_rows id st :
  entity_text_query oh id = [] →
  do_entity_text oh id st =
    Ok tt {| specifications := specifications st;
             queries_sent := queries_sent st ++ [QText id] |}.
Proof. intros E. unfold do_entity_text, bind, send. by rewrite E. Qed.

Lemma do_entity_text_missing id st :
  specifications st !! id = None →
  entity_text_query oh id ≠ [] →
  do_entity_text oh id st = Raise (KeyError id).
Proof.
  intros Hid Hrows. unfold do_entity_text, bind, send.
  destruct (entity_text_query oh id) as [|row rows]; [done|].
  cbn [for_each]. unfold update_text, bind, get_specifications.
  cbn [specifications]. by rewrite Hid.
Qed.

Lemma do_entity_synonyms_missing id st :
  specifications st !! id = None →
  do_entity_synonyms oh id st = Raise (KeyError id).
Proof.
  intros Hid. unfold do_entity_synonyms, bind, send, get_specifications.
  cbn [specifications]. by rewrite Hid.
Qed.

Lemma enriched_keys_split k :
  k ∉ enriched_keys → (k ∉ text_keys) ∧ (k ∉ synonym_keys).
Proof.
  unfold enriched_keys. intros H. split; intros Hk; apply H;
    apply elem_of_app; [by left|by right].
Qed.

Lemma synonym_not_text k : k ∈ synonym_keys → k ∉ text_keys.
Proof.
  unfold synonym_keys, text_keys. simpl. intros Hk.
  repeat (apply elem_of_cons in Hk as [->|Hk]);
    try (by apply elem_of_nil in Hk);
    intros Hin; repeat (apply elem_of_cons in Hin as [Hin|Hin]; [done|]);
    by apply elem_of_nil in Hin.
Qed.

(** Both enrichments, one after the other, on a record of the table. *)
Lemma enrich_ok id st (spec : dict) :
  specifications st !! id = Some spec →
  syn_ok spec →
  ∃ (spec1 spec' : dict),
    do_entity_text oh id st =
      Ok tt {| specifications := <[id := spec1]> (specifications st);
               queries_sent := queries_sent st ++ [QText id] |} ∧
    do_entity_synonyms oh id
      {| specifications := <[id := spec1]> (specifications st);
         queries_sent := queries_sent st ++ [QText id] |} =
      Ok tt {| specifications := <[id := spec']> (specifications st);
               queries_sent := queries_sent st ++ [QText id; QSynonyms id] |} ∧
    syn_ok spec' ∧
    ∀ k, k ∉ enriched_keys → spec' !! k = spec !! k.
Proof.
  intros Hid Hok.
  destruct (do_entity_text_ok id st spec Hid) as (spec1 & E1 & H1).
  set (st1 := {| specifications := <[id := spec1]> (specifications st);
                 queries_sent := queries_sent st ++ [QText id] |}) in *.
  assert (syn_ok spec1) as Hok1.
  { intros k Hk. unfold list_or_absent.
    rewrite H1 by (by apply synonym_not_text). by apply Hok. }
  destruct (do_entity_synonyms_ok oh id st1 spec1) as (spec2 & E2 & H2);
    [apply lookup_insert_eq|done|].
  exists spec1, spec2. split; [done|]. split; [|split].
  - subst st1. rewrite E2. cbn [specifications queries_sent].
    by rewrite insert_insert_eq, <- app_assoc.
  - intros k Hk. eapply list_or_absent_merge; [apply H2|]. by apply Hok1.
  - intros k Hk. apply enriched_keys_split in Hk as [Hk1 Hk2].
    rewrite H2, appended_rows_outside by done. simpl. by apply H1.
Qed.

(** The structural merge of lines 287 to 294. *)
Lemma track_other_parent_new id (myDict : dict) st :
  specifications st !! id = None →
  track_other_parent id myDict st = Ok tt st.
Proof.
  intros Hid. unfold track_other_parent, bind, get_specifications.
  by rewrite Hid.
Qed.

Lemma track_other_parent_existing id (myDict existing : dict) p ep st :
  specifications st !! id = Some existing →
  myDict !! "parent_id" = Some (VStr p) →
  existing !! "parent_id" = Some ep →
  list_or_absent existing "other_parents" →
  track_other_parent id myDict st =
    Ok tt {| specifications := <[id := track_record p existing]> (specifications st);
             queries_sent := queries_sent st |}.
Proof.
  intros Hid Hp Hep Hop.
  unfold track_other_parent, bind, get_specifications, track_record, list_at.
  rewrite Hid, Hp, Hep.
  destruct (truthy (VStr p) && truthy ep && negb (bool_decide (VStr p = ep))).
  - unfold list_or_absent in Hop.
    destruct (existing !! "other_parents") as [[]|] eqn:E; try done.
    + rewrite E. done.
    + rewrite lookup_insert_eq. unfold put_specifications.
      by rewrite insert_insert_eq.
  - unfold ret. rewrite insert_id by done. by destruct st.
Qed.

Lemma track_other_parent_stub id (myDict existing : dict) st :
  specifications st !! id = Some existing →
  existing !! "parent_id" = None →
  track_other_parent id myDict st = Raise (KeyError "parent_id").
Proof.
  intros Hid Hep. unfold track_other_parent, bind, get_specifications.
  rewrite Hid, Hep. by destruct (myDict !! "parent_id").
Qed.

Lemma track_record_syn_ok p (existing : dict) :
  syn_ok existing → syn_ok (track_record p existing).
Proof.
  intros Hok k Hk. unfold track_record.
  destruct (existing !! "parent_id") as [ep|]; [|by apply Hok].
  destruct (_ && _); [|by apply Hok].
  unfold list_or_absent. rewrite lookup_insert_ne; [by apply Hok|].
  intros <-. revert Hk. unfold synonym_keys. simpl. intros Hk.
  repeat (apply elem_of_cons in Hk as [Hk|Hk]; [done|]).
  by apply elem_of_nil in Hk.
Qed.

Lemma parent_id_not_enriched : "parent_id" ∉ enriched_keys.
Proof.
  unfold enriched_keys, text_keys, synonym_keys. simpl. intros H.
  repeat (apply elem_of_cons in H as [H|H]; [done|]).
  by apply elem_of_nil in H.
Qed.

(** [do_entity] on a row whose id is new, or has a record with a parent
    and with lists in its list fields. *)
Lemma do_entity_ok row st :
  (∀ existing : dict, specifications st !! r_id row = Some existing →
     is_Some (existing !! "parent_id") ∧
     list_or_absent existing "other_parents" ∧ syn_ok existing) →
  ∃ (d rec : dict),
    do_entity oh row st =
      Ok d {| specifications := <[r_id row := rec]> (specifications st);
              queries_sent :=
                queries_sent st ++ [QText (r_id row); QSynonyms (r_id row)] |} ∧
    get_parent_id d = Some (r_parent_id row) ∧
    syn_ok rec ∧
    ∀ k, k ∉ enriched_keys →
         rec !! k = merged oh row (specifications st !! r_id row) !! k.
Proof.
  intros Hwf. unfold do_entity. unfold bind at 1, get_specifications at 1.
  destruct (specifications st !! r_id row) as [existing|] eqn:Hid.
  - destruct (Hwf existing eq_refl) as ([ep Hep] & Hop & Hok).
    unfold bind at 1.
    rewrite (track_other_parent_existing _ _ existing (r_parent_id row) ep)
      by (done || apply prepare_entity_parent_id).
    unfold bind at 1, set_entity_default at 1, bind at 1,
      get_specifications at 1. cbn [specifications].
    rewrite lookup_insert_eq. unfold ret at 1.
    set (st1 := {| specifications := _; queries_sent := _ |}).
    destruct (enrich_ok (r_id row) st1 (track_record (r_parent_id row) existing))
      as (spec1 & rec & E1 & E2 & Hok' & H);
      [apply lookup_insert_eq|by apply track_record_syn_ok|].
    exists (prepare_entity oh row), rec.
    unfold bind at 1. rewrite E1. unfold bind at 1. rewrite E2.
    unfold bind, get_specifications, ret. cbn [specifications queries_sent].
    subst st1. cbn [specifications queries_sent].
    rewrite insert_insert_eq. split; [done|]. split; [|done].
    unfold get_parent_id. by rewrite prepare_entity_parent_id.
  - unfold bind at 1. rewrite track_other_parent_new by done.
    unfold bind at 1, set_entity_default at 1, bind at 1,
      get_specifications at 1. rewrite Hid. unfold put_specifications at 1.
    set (st1 := {| specifications := _; queries_sent := _ |}).
    destruct (enrich_ok (r_id row) st1 (prepare_entity oh row))
      as (spec1 & rec & E1 & E2 & Hok' & H);
      [apply lookup_insert_eq|apply prepare_entity_syn_ok|].
    exists rec, rec.
    unfold bind at 1. rewrite E1. unfold bind at 1. rewrite E2.
    unfold bind, get_specifications, ret. cbn [specifications queries_sent].
    subst st1. cbn [specifications queries_sent].
    rewrite insert_insert_eq, lookup_insert_eq. split; [done|].
    split; [|done].
    unfold get_parent_id.
    by rewrite (H _ parent_id_not_enriched), prepare_entity_parent_id.
Qed.

End EntityFacts.

(** ** The two loops of [do_entities] *)

Section TableFacts.

Context (oh : onto_helper).

Lemma rows_of_snoc id done row :
  rows_of id (done ++ [row]) =
  rows_of id done ++ (if bool_decide (r_id row = id) then [row] else []).
Proof.
  unfold rows_of. rewrite filter_app. f_equal.
  rewrite filter_cons, filter_nil. by case_bool_decide; case_decide.
Qed.

Lemma later_parents_snoc first later row :
  later_parents first (later ++ [row]) =
  later_parents first later ++
    (if other_parent first (r_parent_id row) then [r_parent_id row] else []).
Proof.
  unfold later_parents. rewrite map_app, filter_app. f_equal.
  cbn [map]. rewrite filter_cons, filter_nil.
  destruct (other_parent first (r_parent_id row)); by case_decide.
Qed.

Lemma others_val_snoc (d : dict) l p :
  d !! "other_parents" = others_val l →
  Some (VList (list_at d "other_parents" ++ [p])) = others_val (l ++ [p]).
Proof.
  intros H. unfold list_at. rewrite H. by destruct l.
Qed.

Lemma other_parents_not_enriched : "other_parents" ∉ enriched_keys.
Proof.
  unfold enriched_keys, text_keys, synonym_keys. simpl. intros H.
  repeat (apply elem_of_cons in H as [H|H]; [done|]).
  by apply elem_of_nil in H.
Qed.

(** One step of the first loop keeps the table in line with the rows
    seen. *)
Lemma do_entity_step done row (t : gmap string dict) qs :
  table_of oh done t →
  ∃ (d : dict) (t' : gmap string dict),
    do_entity oh row {| specifications := t; queries_sent := qs |} =
      Ok d {| specifications := t';
              queries_sent := qs ++ [QText (r_id row); QSynonyms (r_id row)] |} ∧
    get_parent_id d = Some (r_parent_id row) ∧
    table_of oh (done ++ [row]) t'.
Proof.
  intros Ht.
  destruct (do_entity_ok oh row {| specifications := t; queries_sent := qs |})
    as (d & rec & E & Hp & Hok & Hrec).
  { cbn [specifications]. intros existing Hex.
    specialize (Ht (r_id row)).
    destruct (rows_of (r_id row) done) as [|r0 later]; [congruence|].
    destruct Ht as (d & Hd & Hok & Hop & Hk).
    assert (d = existing) as -> by congruence.
    split; [|split; [|done]].
    - rewrite Hk, prepare_entity_parent_id;
        [done|apply parent_id_not_enriched|done].
    - unfold list_or_absent. rewrite Hop.
      by destruct (later_parents _ _). }
  cbn [specifications queries_sent] in *.
  exists d, (<[r_id row := rec]> t). split; [done|]. split; [done|].
  intros id. rewrite rows_of_snoc.
  specialize (Ht id). case_bool_decide as Hid.
  - subst id. destruct (rows_of (r_id row) done) as [|r0 later].
    + rewrite Ht in Hrec. cbn [merged app] in *.
      exists rec. rewrite lookup_insert_eq. split; [done|]. split; [done|].
      split; [|intros; by apply Hrec].
      rewrite Hrec by apply other_parents_not_enriched.
      rewrite prepare_entity_outside; [done|].
      unfold row_keys. intros H.
      repeat (apply elem_of_cons in H as [H|H]; [done|]).
      by apply elem_of_nil in H.
    + destruct Ht as (d0 & Hd0 & Hok0 & Hop0 & Hk0).
      rewrite Hd0 in Hrec. cbn [merged] in Hrec.
      assert (d0 !! "parent_id" = Some (VStr (r_parent_id r0))) as Hp0.
      { rewrite Hk0, prepare_entity_parent_id;
          [done|apply parent_id_not_enriched|done]. }
      rewrite <- app_comm_cons.
      exists rec. rewrite lookup_insert_eq. split; [done|]. split; [done|].
      unfold track_record in Hrec. rewrite Hp0 in Hrec.
      fold (other_parent (r_parent_id r0) (r_parent_id row)) in Hrec.
      rewrite later_parents_snoc. split.
      * rewrite Hrec by apply other_parents_not_enriched.
        destruct (other_parent (r_parent_id r0) (r_parent_id row)).
        -- rewrite lookup_insert_eq. by apply others_val_snoc.
        -- by rewrite app_nil_r.
      * intros k Hk Hne. rewrite Hrec by done.
        destruct (other_parent (r_parent_id r0) (r_parent_id row)).
        -- rewrite lookup_insert_ne by done. by apply Hk0.
        -- by apply Hk0.
  - rewrite app_nil_r, lookup_insert_ne by done. exact Ht.
Qed.

Lemma first_pass_ok rest :
  ∀ done (t : gmap string dict) qs parents,
    table_of oh done t →
    ∃ t' : gmap string dict,
      first_pass oh rest parents {| specifications := t; queries_sent := qs |} =
        Ok (collect_parents rest parents)
           {| specifications := t'; queries_sent := qs ++ row_queries rest |} ∧
      table_of oh (done ++ rest) t'.
Proof.
  induction rest as [|row rest IH]; intros done t qs parents Ht.
  { exists t. cbn [first_pass collect_parents row_queries flat_map].
    rewrite !app_nil_r. by split. }
  destruct (do_entity_step done row t qs Ht) as (d & t1 & E & Hp & Ht1).
  destruct (IH (done ++ [row]) t1
              (qs ++ [QText (r_id row); QSynonyms (r_id row)])
              (if truthy (VStr (r_parent_id row)) then
                 if bool_decide (r_parent_id row ∈ parents) then parents
                 else parents ++ [r_parent_id row]
               else parents) Ht1) as (t' & E' & Ht').
  exists t'. split.
  - cbn [first_pass]. unfold bind at 1. rewrite E, Hp, E'.
    cbn [collect_parents row_queries flat_map]. by rewrite <- app_assoc.
  - by rewrite <- app_assoc in Ht'.
Qed.

Lemma backfill_parent_ok p (t : gmap string dict) qs :
  backfill_parent p {| specifications := t; queries_sent := qs |} =
    Ok tt {| specifications :=
               match t !! p with Some _ => t | None => <[p := stub p]> t end;
             queries_sent := qs |}.
Proof.
  unfold backfill_parent, bind, get_specifications, set_entity_default.
  cbn [specifications]. destruct (t !! p) eqn:E; [done|].
  unfold bind, get_specifications. cbn [specifications]. by rewrite E.
Qed.

(** The second loop adds a stub for each parent without a record and
    leaves every record of the table as it is. *)
Lemma second_pass_ok parents :
  ∀ (t : gmap string dict) qs,
    ∃ t' : gmap string dict,
      second_pass parents {| specifications := t; queries_sent := qs |} =
        Ok tt {| specifications := t'; queries_sent := qs |} ∧
      ∀ id, t' !! id =
            match t !! id with
            | Some d => Some d
            | None => if bool_decide (id ∈ parents) then Some (stub id) else None
            end.
Proof.
  unfold second_pass.
  induction parents as [|p parents IH]; intros t qs.
  { exists t. split; [done|]. intros id. rewrite bool_decide_eq_false_2.
    - by destruct (t !! id).
    - apply not_elem_of_nil. }
  destruct (IH (match t !! p with Some _ => t | None => <[p := stub p]> t end) qs)
    as (t' & E & H).
  exists t'. split.
  - cbn [for_each]. unfold bind at 1. by rewrite backfill_parent_ok.
  - intros id. rewrite H. destruct (decide (id = p)) as [->|Hne].
    + destruct (t !! p) eqn:Ep.
      * by rewrite Ep.
      * rewrite lookup_insert_eq, bool_decide_eq_true_2; [done|left].
    + assert ((match t !! p with Some _ => t | None => <[p := stub p]> t end)
                !! id = t !! id) as ->.
      { destruct (t !! p); [done|]. by rewrite lookup_insert_ne. }
      destruct (t !! id); [done|].
      destruct (bool_decide (id ∈ parents)) eqn:Ein.
      * apply bool_decide_eq_true_1 in Ein.
        rewrite bool_decide_eq_true_2; [done|by right].
      * apply bool_decide_eq_false_1 in Ein.
        rewrite bool_decide_eq_false_2; [done|].
        intros [?|?]%elem_of_cons; done.
Qed.

Lemma table_of_empty : table_of oh [] ∅.
Proof. intros id. apply lookup_empty. Qed.

(** [do_entities] on the empty table: it ends, it has sent the text and
    the synonym query of each row, and the table is the final table of the
    rows. *)
Lemma do_entities_ok rows :
  ∃ t : gmap string dict,
    do_entities oh rows initial_state =
      Ok tt {| specifications := t; queries_sent := row_queries rows |} ∧
    final_table oh rows t.
Proof.
  destruct (first_pass_ok rows [] ∅ [] [] table_of_empty) as (t1 & E1 & H1).
  destruct (second_pass_ok (collect_parents rows []) t1 (row_queries rows))
    as (t2 & E2 & H2).
  exists t2. split.
  - unfold do_entities, bind, initial_state. rewrite E1. exact E2.
  - intros id. specialize (H1 id). rewrite app_nil_l in H1.
    rewrite H2. destruct (rows_of id rows) as [|r0 later].
    + by rewrite H1.
    + destruct H1 as (d & Hd & H1). exists d. by rewrite Hd.
Qed.

End TableFacts.

(** ** Parents and queries of a table *)

Lemma collect_parents_elem rows :
  ∀ parents p,
    p ∈ collect_parents rows parents ↔
    p ∈ parents ∨ ∃ r, r ∈ rows ∧ r_parent_id r = p ∧ truthy (VStr p) = true.
Proof.
  induction rows as [|r rows IH]; intros parents p; cbn [collect_parents].
  { split; [by left|]. intros [H|(r & Hr & _)]; [done|].
    by apply elem_of_nil in Hr. }
  rewrite IH. split.
  - intros [H|(r' & Hr' & Hp)].
    + destruct (truthy (VStr (r_parent_id r))) eqn:Et; [|by left].
      case_bool_decide; [by left|].
      apply elem_of_app in H as [H|H]; [by left|].
      apply list_elem_of_singleton in H as ->.
      right. exists r. split; [left|done].
    + right. exists r'. split; [by right|done].
  - intros [H|(r' & Hr' & Hp & Ht)].
    + left. destruct (truthy (VStr (r_parent_id r))); [|done].
      case_bool_decide; [done|]. apply elem_of_app. by left.
    + apply elem_of_cons in Hr' as [->|Hr'].
      * left. rewrite Hp, Ht. case_bool_decide; [done|].
        apply elem_of_app. right. by apply list_elem_of_singleton.
      * right. exists r'. done.
Qed.

Lemma truthy_nonempty s : s ≠ EmptyString → truthy (VStr s) = true.
Proof.
  intros H. simpl. destruct (String.eqb_spec s EmptyString); done.
Qed.

Lemma count_text_queries id rows :
  count_occ query_eq_dec (row_queries rows) (QText id) =
  length (rows_of id rows).
Proof.
  unfold row_queries, rows_of.
  induction rows as [|r rows IH]; [done|].
  cbn [flat_map app]. rewrite filter_cons.
  destruct (decide (r_id r = id)) as [->|Hne].
  - rewrite count_occ_cons_eq by done.
    rewrite count_occ_cons_neq by done. cbn [length]. by rewrite IH.
  - rewrite !count_occ_cons_neq by congruence. exact IH.
Qed.

Lemma count_synonym_queries id rows :
  count_occ query_eq_dec (row_queries rows) (QSynonyms id) =
  length (rows_of id rows).
Proof.
  unfold row_queries, rows_of.
  induction rows as [|r rows IH]; [done|].
  cbn [flat_map app]. rewrite filter_cons.
  destruct (decide (r_id r = id)) as [->|Hne].
  - rewrite count_occ_cons_neq by done.
    rewrite count_occ_cons_eq by done. cbn [length]. by rewrite IH.
  - rewrite !count_occ_cons_neq by congruence. exact IH.
Qed.


Lemma stub_no_parent id : stub id !! "parent_id" = None.
Proof. unfold stub. by simplify_map_eq. Qed.

Lemma datatype_not_enriched : "datatype" ∉ enriched_keys.
Proof.
  unfold enriched_keys, text_keys, synonym_keys. simpl. intros H.
  no_such_key H.
Qed.

Lemma id_not_enriched : "id" ∉ enriched_keys.
Proof.
  unfold enriched_keys, text_keys, synonym_keys. simpl. intros H.
  no_such_key H.
Qed.

(** The record of a subject in the final table, field by field. *)
Lemma final_table_subject oh rows (t : gmap string dict) id r0 later :
  final_table oh rows t →
  rows_of id rows = r0 :: later →
  ∃ d : dict,
    t !! id = Some d ∧
    d !! "id" = Some (VStr (r_id r0)) ∧
    d !! "parent_id" = Some (VStr (r_parent_id r0)) ∧
    d !! "other_parents" = others_val (later_parents (r_parent_id r0) later) ∧
    d !! "datatype" = None ∧
    ∀ k, k ∉ enriched_keys → k ≠ "other_parents" →
         d !! k = prepare_entity oh r0 !! k.
Proof.
  intros Ht Hrows. specialize (Ht id). rewrite Hrows in Ht.
  destruct Ht as (d & Hd & _ & Hop & Hk). exists d.
  split; [done|]. split; [|split; [|split; [done|split; [|done]]]].
  - rewrite Hk, prepare_entity_id; [done|apply id_not_enriched|done].
  - rewrite Hk, prepare_entity_parent_id;
      [done|apply parent_id_not_enriched|done].
  - rewrite Hk; [|apply datatype_not_enriched|done].
    apply prepare_entity_outside. unfold row_keys. intros H. no_such_key H.
Qed.

Lemma rows_of_head id rows r0 later :
  rows_of id rows = r0 :: later → r_id r0 = id ∧ r0 ∈ rows.
Proof.
  intros H. assert (r0 ∈ rows_of id rows) as Hin by (rewrite H; left).
  unfold rows_of in Hin. apply list_elem_of_filter in Hin as [? ?]. done.
Qed.

(** * The claims *)

(** C1. End to end: on the rows (T1, R, "Term One"), (T2, R, "Term Two"),
    (T1, R2, "Term One"), whatever the graph answers to the text and
    synonym queries, [do_entities] ends with a table in which T1 has
    [parent_id] R and [other_parents] [R2], T2 has [parent_id] R and no
    other parent, and R and R2 are the stubs with the datatype "entity". *)
Theorem end_to_end_scenario (oh : onto_helper) :
  ∃ (t : gmap string dict) (qs : list query) (d1 d2 : dict),
    do_entities oh scenario_rows initial_state =
      Ok tt {| specifications := t; queries_sent := qs |} ∧
    t !! "T1" = Some d1 ∧
    d1 !! "parent_id" = Some (VStr "R") ∧
    d1 !! "other_parents" = Some (VList ["R2"]) ∧
    t !! "T2" = Some d2 ∧
    d2 !! "parent_id" = Some (VStr "R") ∧
    d2 !! "other_parents" = None ∧
    t !! "R" = Some (stub "R") ∧
    t !! "R2" = Some (stub "R2") ∧
    stub "R" !! "datatype" = Some (VStr "entity") ∧
    stub "R2" !! "datatype" = Some (VStr "entity").
Proof.
  destruct (do_entities_ok oh scenario_rows) as (t & E & Ht).
  destruct (final_table_subject oh scenario_rows t "T1"
              (labelled_row "T1" "R" "Term One")
              [labelled_row "T1" "R2" "Term One"] Ht eq_refl)
    as (d1 & Hd1 & _ & Hp1 & Ho1 & _).
  destruct (final_table_subject oh scenario_rows t "T2"
              (labelled_row "T2" "R" "Term Two") [] Ht eq_refl)
    as (d2 & Hd2 & _ & Hp2 & Ho2 & _).
  exists t, (row_queries scenario_rows), d1, d2.
  split; [exact E|]. repeat split; try done.
  - exact (Ht "R").
  - exact (Ht "R2").
Qed.

(** C2, as amended.  [other_parents] never holds the primary parent: it
    holds, in the order of the rows, the parent of each later row of the
    id that is a parent other than the primary one; nothing removes a
    parent that comes twice.  The rows (A,P1), (A,P1), (A,P2) give A the
    [parent_id] P1 and the [other_parents] [P2]. *)
Theorem other_parents_tracking (oh : onto_helper) :
  (∀ rows : list tree_row,
     ∃ (t : gmap string dict) (qs : list query),
       do_entities oh rows initial_state =
         Ok tt {| specifications := t; queries_sent := qs |} ∧
       ∀ id r0 later, rows_of id rows = r0 :: later →
         ∃ d : dict,
           t !! id = Some d ∧
           d !! "parent_id" = Some (VStr (r_parent_id r0)) ∧
           list_at d "other_parents" = later_parents (r_parent_id r0) later ∧
           r_parent_id r0 ∉ list_at d "other_parents") ∧
  field_of (do_entities oh
              [bare_row "A" "P1"; bare_row "A" "P1"; bare_row "A" "P2"]
              initial_state) "A" "parent_id" = Some (VStr "P1") ∧
  field_of (do_entities oh
              [bare_row "A" "P1"; bare_row "A" "P1"; bare_row "A" "P2"]
              initial_state) "A" "other_parents" = Some (VList ["P2"]).
Proof.
  assert (∀ rows, ∃ t : gmap string dict,
            do_entities oh rows initial_state =
              Ok tt {| specifications := t;
                       queries_sent := row_queries rows |} ∧
            ∀ id r0 later, rows_of id rows = r0 :: later →
              ∃ d : dict, t !! id = Some d ∧
                d !! "parent_id" = Some (VStr (r_parent_id r0)) ∧
                d !! "other_parents" =
                  others_val (later_parents (r_parent_id r0) later)) as Hsub.
  { intros rows. destruct (do_entities_ok oh rows) as (t & E & Ht).
    exists t. split; [done|]. intros id r0 later Hrows.
    destruct (final_table_subject oh rows t id r0 later Ht Hrows)
      as (d & Hd & _ & Hp & Ho & _). by exists d. }
  split.
  - intros rows. destruct (Hsub rows) as (t & E & H).
    exists t, (row_queries rows). split; [done|].
    intros id r0 later Hrows.
    destruct (H id r0 later Hrows) as (d & Hd & Hp & Ho).
    exists d. split; [done|]. split; [done|].
    assert (list_at d "other_parents" = later_parents (r_parent_id r0) later)
      as Hl.
    { unfold list_at. rewrite Ho. by destruct (later_parents _ _). }
    split; [done|]. rewrite Hl. unfold later_parents.
    intros [Hf _]%list_elem_of_filter. unfold other_parent in Hf.
    rewrite bool_decide_eq_true_2 in Hf by done.
    by rewrite andb_false_r in Hf.
  - destruct (Hsub [bare_row "A" "P1"; bare_row "A" "P1"; bare_row "A" "P2"])
      as (t & E & H).
    destruct (H "A" (bare_row "A" "P1")
                [bare_row "A" "P1"; bare_row "A" "P2"] eq_refl)
      as (d & Hd & Hp & Ho).
    rewrite E. cbn [field_of specifications]. rewrite Hd. by split.
Qed.

(** C2 as stated fails: after the rows (A,P1), (A,P2), (A,P2) the list
    [other_parents] of A holds P2 twice. *)
Lemma other_parents_repeats :
  ¬ (∀ (oh : onto_helper) (rows : list tree_row) (t : gmap string dict)
       (qs : list query) (id : string) (d : dict) (l : list string),
       do_entities oh rows initial_state =
         Ok tt {| specifications := t; queries_sent := qs |} →
       t !! id = Some d →
       d !! "other_parents" = Some (VList l) →
       NoDup l).
Proof.
  intros H.
  pose (rows := [bare_row "A" "P1"; bare_row "A" "P2"; bare_row "A" "P2"]).
  destruct (do_entities_ok silent_helper rows) as (t & E & Ht).
  destruct (final_table_subject silent_helper rows t "A" (bare_row "A" "P1")
              [bare_row "A" "P2"; bare_row "A" "P2"] Ht eq_refl)
    as (d & Hd & _ & _ & Ho & _).
  specialize (H silent_helper rows t _ "A" d ["P2"; "P2"] E Hd Ho).
  apply NoDup_cons in H as [Hnin _]. apply Hnin. left.
Qed.

(** C3, as amended.  [do_entities] sends the text query and the synonym
    query once for each row, for the id of the row and in the order of the
    rows: an id is queried as many times as it has rows, and a parent that
    is only backfilled as a stub is not queried. *)
Theorem queries_once_per_row (oh : onto_helper) (rows : list tree_row) :
  ∃ t : gmap string dict,
    do_entities oh rows initial_state =
      Ok tt {| specifications := t; queries_sent := row_queries rows |} ∧
    ∀ id,
      count_occ query_eq_dec (row_queries rows) (QText id) =
        length (rows_of id rows) ∧
      count_occ query_eq_dec (row_queries rows) (QSynonyms id) =
        length (rows_of id rows).
Proof.
  destruct (do_entities_ok oh rows) as (t & E & _).
  exists t. split; [exact E|]. intros id.
  by rewrite count_text_queries, count_synonym_queries.
Qed.

(** C3 as stated fails: after the rows (T1,R), (T1,R2) the ids T1 and R
    are both in the table, T1 has been queried twice and R not at all. *)
Lemma queries_not_once_per_id :
  ¬ (∀ (oh : onto_helper) (rows : list tree_row) (t : gmap string dict)
       (qs : list query) (id : string),
       do_entities oh rows initial_state =
         Ok tt {| specifications := t; queries_sent := qs |} →
       is_Some (t !! id) →
       count_occ query_eq_dec qs (QText id) = 1 ∧
       count_occ query_eq_dec qs (QSynonyms id) = 1).
Proof.
  intros H.
  pose (rows := [bare_row "T1" "R"; bare_row "T1" "R2"]).
  destruct (do_entities_ok silent_helper rows) as (t & E & Ht).
  assert (is_Some (t !! "R")) as HR.
  { pose proof (Ht "R") as HtR. change (t !! "R" = Some (stub "R")) in HtR.
    by rewrite HtR. }
  destruct (H silent_helper rows t _ "R" E HR) as [Hc _].
  rewrite count_text_queries in Hc. discriminate Hc.
Qed.






(** ** One synonym row *)

(** The categories have distinct keys: under the key of a category a row
    adds the phrases of that category only. *)
Lemma appended_field row field :
  field ∈ SYNONYM_FIELDS →
  appended SYNONYM_FIELDS row (PyStr.replace_first "_" ":" field) =
    match raw_value row field with
    | Some raw => synonym_phrases raw
    | None => []
    end.
Proof.
  intros Hf. unfold SYNONYM_FIELDS in Hf.
  repeat (apply elem_of_cons in Hf as [->|Hf]);
    try (by apply elem_of_nil in Hf);
    unfold appended, SYNONYM_FIELDS; cbn [flat_map];
    repeat (first [ rewrite bool_decide_eq_true_2 by reflexivity
                  | rewrite bool_decide_eq_false_2 by discriminate ]);
    by rewrite ?app_nil_r.
Qed.

Lemma raw_value_nonempty (row : synonym_row) field raw :
  row field = Some raw → raw ≠ EmptyString → raw_value row field = Some raw.
Proof.
  intros E H. unfold raw_value. by rewrite E, truthy_nonempty.
Qed.

(** [do_entity_synonyms] when the graph answers one row with a non-empty
    raw value in a category: the phrases of the value come after those the
    record holds. *)
Lemma do_entity_synonyms_one_row oh id st (spec : dict) field row raw :
  field ∈ SYNONYM_FIELDS →
  specifications st !! id = Some spec →
  syn_ok spec →
  entity_synonyms_query oh id = [row] →
  row field = Some raw →
  raw ≠ EmptyString →
  ∃ spec' : dict,
    do_entity_synonyms oh id st =
      Ok tt {| specifications := <[id := spec']> (specifications st);
               queries_sent := queries_sent st ++ [QSynonyms id] |} ∧
    syn_ok spec' ∧
    spec' !! PyStr.replace_first "_" ":" field =
      Some (VList (list_at spec (PyStr.replace_first "_" ":" field)
                     ++ synonym_phrases raw)).
Proof.
  intros Hf Hid Hok Hrows Hrow Hraw.
  destruct (do_entity_synonyms_ok oh id st spec Hid Hok) as (spec' & E & H).
  exists spec'. split; [done|]. split.
  { intros k Hk. eapply list_or_absent_merge; [apply H|]. by apply Hok. }
  rewrite H, Hrows. unfold appended_rows. cbn [flat_map].
  rewrite app_nil_r, appended_field by done.
  rewrite (raw_value_nonempty row field raw) by done.
  pose proof (PyStrFacts.split_nonempty ";"
    (PyStr.replace dquote EmptyString
       (PyStr.strip (PyStr.replace "\n" ";" raw)))) as Hne.
  fold (synonym_phrases raw) in Hne.
  unfold merge_val, list_at.
  destruct (synonym_phrases raw); [done|].
  specialize (Hok _ (synonym_keys_elem field Hf)). unfold list_or_absent in Hok.
  by destruct (spec !! PyStr.replace_first "_" ":" field) as [[]|].
Qed.

(** C7. Synonyms accumulate: two enrichments of an id, the first with the
    raw value [raw1] and a later one with [raw2] in the same category,
    leave under the key of the category the phrases the record held, then
    those of [raw1], then those of [raw2], none removed or reordered; with
    the raw values "foo;bar" and "baz" these are "foo", "bar", "baz". *)
Theorem synonyms_append_only (oh1 oh2 : onto_helper) (id : string)
  (st : state) (spec : dict) (field : string) (row1 row2 : synonym_row)
  (raw1 raw2 : string) :
  field ∈ SYNONYM_FIELDS →
  specifications st !! id = Some spec →
  syn_ok spec →
  entity_synonyms_query oh1 id = [row1] →
  entity_synonyms_query oh2 id = [row2] →
  row1 field = Some raw1 → raw1 ≠ EmptyString →
  row2 field = Some raw2 → raw2 ≠ EmptyString →
  ∃ (st1 st2 : state) (spec2 : dict),
    do_entity_synonyms oh1 id st = Ok tt st1 ∧
    do_entity_synonyms oh2 id st1 = Ok tt st2 ∧
    specifications st2 !! id = Some spec2 ∧
    spec2 !! PyStr.replace_first "_" ":" field =
      Some (VList (list_at spec (PyStr.replace_first "_" ":" field)
                     ++ synonym_phrases raw1 ++ synonym_phrases raw2)) ∧
    synonym_phrases "foo;bar" ++ synonym_phrases "baz" = ["foo"; "bar"; "baz"].
Proof.
  intros Hf Hid Hok Hq1 Hq2 Hr1 Hn1 Hr2 Hn2.
  destruct (do_entity_synonyms_one_row oh1 id st spec field row1 raw1)
    as (spec1 & E1 & Hok1 & H1); try done.
  set (st1 := {| specifications := <[id := spec1]> (specifications st);
                 queries_sent := queries_sent st ++ [QSynonyms id] |}) in *.
  destruct (do_entity_synonyms_one_row oh2 id st1 spec1 field row2 raw2)
    as (spec2 & E2 & Hok2 & H2); try done.
  { apply lookup_insert_eq. }
  eexists st1, _, spec2. split; [exact E1|]. split; [exact E2|].
  split; [apply lookup_insert_eq|]. split; [|reflexivity].
  rewrite H2. unfold list_at at 1. rewrite H1. by rewrite <- app_assoc.
Qed.

Lemma synonyms_append_only_witness :
  ∃ (st1 st2 : state) (spec2 : dict),
    do_entity_synonyms (synonym_helper "exact_synonym" "foo;bar") "X"
      (single_record "X" ∅) = Ok tt st1 ∧
    do_entity_synonyms (synonym_helper "exact_synonym" "baz") "X" st1
      = Ok tt st2 ∧
    specifications st2 !! "X" = Some spec2 ∧
    spec2 !! PyStr.replace_first "_" ":" "exact_synonym" =
      Some (VList (list_at ∅ (PyStr.replace_first "_" ":" "exact_synonym")
                     ++ synonym_phrases "foo;bar" ++ synonym_phrases "baz")) ∧
    synonym_phrases "foo;bar" ++ synonym_phrases "baz" = ["foo"; "bar"; "baz"].
Proof.
  apply (synonyms_append_only
           (synonym_helper "exact_synonym" "foo;bar")
           (synonym_helper "exact_synonym" "baz")
           "X" (single_record "X" ∅) ∅ "exact_synonym"
           (λ f, if bool_decide (f = "exact_synonym") then Some "foo;bar" else None)
           (λ f, if bool_decide (f = "exact_synonym") then Some "baz" else None)
           "foo;bar" "baz").
  - unfold SYNONYM_FIELDS. do 2 right. left.
  - reflexivity.
  - intros k _. unfold list_or_absent. by rewrite lookup_empty.
  - reflexivity.
  - reflexivity.
  - reflexivity.
  - discriminate.
  - reflexivity.
  - discriminate.
Defined.

(** C8, as amended.  For a category with a non-empty raw value the
    enrichment replaces each escape sequence backslash-n by a semicolon,
    strips the white space at the two ends of the whole value (what is
    left neither starts nor ends with white space), removes the double
    quotes, splits at the semicolons and appends the pieces to the list of
    the record: the pieces hold no semicolon and no double quote and,
    joined by semicolons, give the cleaned value back.  The pieces are not
    stripped one by one. *)
Theorem synonym_cleanup (oh : onto_helper) (id : string) (st : state)
  (spec : dict) (field : string) (row : synonym_row) (raw : string) :
  field ∈ SYNONYM_FIELDS →
  specifications st !! id = Some spec →
  syn_ok spec →
  entity_synonyms_query oh id = [row] →
  row field = Some raw → raw ≠ EmptyString →
  ∃ (st' : state) (spec' : dict) (w1 w2 : string),
    do_entity_synonyms oh id st = Ok tt st' ∧
    specifications st' !! id = Some spec' ∧
    spec' !! PyStr.replace_first "_" ":" field =
      Some (VList (list_at spec (PyStr.replace_first "_" ":" field)
                     ++ synonym_phrases raw)) ∧
    PyStr.white w1 ∧ PyStr.white w2 ∧
    PyStr.replace "\n" ";" raw =
      w1 +:+ PyStr.strip (PyStr.replace "\n" ";" raw) +:+ w2 ∧
    PyStr.starts_white (PyStr.strip (PyStr.replace "\n" ";" raw)) = false ∧
    PyStr.ends_white (PyStr.strip (PyStr.replace "\n" ";" raw)) = false ∧
    PyStr.join ";" (synonym_phrases raw) =
      PyStr.replace dquote EmptyString
        (PyStr.strip (PyStr.replace "\n" ";" raw)) ∧
    Forall (λ p, PyStr.contains ";" p = false ∧
                 PyStr.contains (ascii_of_nat 34) p = false)
      (synonym_phrases raw) ∧
    synonym_phrases ("  foo; bar  ") = ["foo"; " bar"] ∧
    synonym_phrases (nbsp +:+ "foo" +:+ em_space) = ["foo"] ∧
    synonym_phrases (" " +:+ dquote +:+ "foo" +:+ dquote +:+ "\nbar ")
      = ["foo"; "bar"].
Proof.
  intros Hf Hid Hok Hq Hr Hn.
  destruct (do_entity_synonyms_one_row oh id st spec field row raw)
    as (spec' & E & _ & H); try done.
  destruct (PyStrFacts.strip_spec (PyStr.replace "\n" ";" raw))
    as (w1 & w2 & Hw1 & Hw2 & Heq & Hs & He).
  eexists _, spec', w1, w2. split; [exact E|].
  split; [apply lookup_insert_eq|]. split; [exact H|].
  split; [done|]. split; [done|]. split; [done|]. split; [done|].
  split; [done|]. unfold synonym_phrases at 1 2. split.
  { apply PyStrFacts.join_split_char. }
  split.
  { apply Forall_and. split.
    - apply PyStrFacts.split_char_no_sep.
    - apply PyStrFacts.split_char_contains, PyStrFacts.replace_char_removed. }
  split; [vm_compute; reflexivity|]. split; vm_compute; reflexivity.
Qed.

Lemma synonym_cleanup_witness :
  ∃ (st' : state) (spec' : dict) (w1 w2 : string),
    do_entity_synonyms (synonym_helper "exact_synonym" "  foo; bar  ") "X"
      (single_record "X" ∅) = Ok tt st' ∧
    specifications st' !! "X" = Some spec' ∧
    spec' !! PyStr.replace_first "_" ":" "exact_synonym" =
      Some (VList (list_at ∅ (PyStr.replace_first "_" ":" "exact_synonym")
                     ++ synonym_phrases "  foo; bar  ")) ∧
    PyStr.white w1 ∧ PyStr.white w2 ∧
    PyStr.replace "\n" ";" "  foo; bar  " =
      w1 +:+ PyStr.strip (PyStr.replace "\n" ";" "  foo; bar  ") +:+ w2 ∧
    PyStr.starts_white
      (PyStr.strip (PyStr.replace "\n" ";" "  foo; bar  ")) = false ∧
    PyStr.ends_white
      (PyStr.strip (PyStr.replace "\n" ";" "  foo; bar  ")) = false ∧
    PyStr.join ";" (synonym_phrases "  foo; bar  ") =
      PyStr.replace dquote EmptyString
        (PyStr.strip (PyStr.replace "\n" ";" "  foo; bar  ")) ∧
    Forall (λ p, PyStr.contains ";" p = false ∧
                 PyStr.contains (ascii_of_nat 34) p = false)
      (synonym_phrases "  foo; bar  ") ∧
    synonym_phrases ("  foo; bar  ") = ["foo"; " bar"] ∧
    synonym_phrases (nbsp +:+ "foo" +:+ em_space) = ["foo"] ∧
    synonym_phrases (" " +:+ dquote +:+ "foo" +:+ dquote +:+ "\nbar ")
      = ["foo"; "bar"].
Proof.
  apply (synonym_cleanup (synonym_helper "exact_synonym" "  foo; bar  ")
           "X" (single_record "X" ∅) ∅ "exact_synonym"
           (λ f, if bool_decide (f = "exact_synonym") then Some "  foo; bar  "
                 else None)
           "  foo; bar  ").
  - unfold SYNONYM_FIELDS. do 2 right. left.
  - reflexivity.
  - intros k _. unfold list_or_absent. by rewrite lookup_empty.
  - reflexivity.
  - reflexivity.
  - discriminate.
Defined.

(** C8 as stated fails: the raw value "foo; bar" leaves the phrases "foo"
    and " bar", the second with its leading space. *)
Lemma phrases_not_stripped :
  field_of (do_entity_synonyms (synonym_helper "exact_synonym" "foo; bar")
              "X" (single_record "X" ∅)) "X" "exact:synonym"
    = Some (VList ["foo"; " bar"]) ∧
  field_of (do_entity_synonyms (synonym_helper "exact_synonym" "foo; bar")
              "X" (single_record "X" ∅)) "X" "exact:synonym"
    ≠ Some (VList ["foo"; "bar"]).
Proof.
  assert (field_of
            (do_entity_synonyms (synonym_helper "exact_synonym" "foo; bar")
               "X" (single_record "X" ∅)) "X" "exact:synonym"
          = Some (VList ["foo"; " bar"])) as E by (vm_compute; reflexivity).
  split; [exact E|]. rewrite E. discriminate.
Qed.

(** ** Exceptions of the enrichments *)

Lemma add_synonyms_error row field (spec : dict) e :
  add_synonyms row field spec = inl e → e = TypeError.
Proof.
  unfold add_synonyms. destruct (row field); [|done].
  destruct (truthy (VStr _)); [|done].
  destruct (truthy (VList _)); [|done].
  destruct (spec !! _) as [[]|]; congruence.
Qed.

Lemma synonym_fields_error fields row (spec : dict) e :
  synonym_fields fields row spec = inl e → e = TypeError.
Proof.
  revert spec. induction fields as [|f fields IH]; intros spec; [done|].
  cbn [synonym_fields].
  destruct (add_synonyms row f spec) as [e'|spec'] eqn:E.
  - intros [= <-]. by eapply add_synonyms_error.
  - apply IH.
Qed.

Lemma synonym_rows_error rows (spec : dict) e :
  synonym_rows rows spec = inl e → e = TypeError.
Proof.
  revert spec. induction rows as [|row rows IH]; intros spec; [done|].
  cbn [synonym_rows].
  destruct (synonym_fields SYNONYM_FIELDS row spec) as [e'|spec'] eqn:E.
  - intros [= <-]. by eapply synonym_fields_error.
  - apply IH.
Qed.

(** A [KeyError] of [do_entity] is one of the structural merge: the two
    enrichments run when the table has the record of the id. *)
Lemma do_entity_keyerror oh row st k :
  do_entity oh row st = Raise (KeyError k) →
  track_other_parent (r_id row) (prepare_entity oh row) st
    = Raise (KeyError k).
Proof.
  unfold do_entity. unfold bind at 1, get_specifications at 1.
  unfold bind at 1.
  destruct (track_other_parent (r_id row) (prepare_entity oh row) st)
    as [[] st1|e] eqn:Et; [|by intros [= ->]].
  intros H. exfalso. revert H.
  assert (∃ st2 (spec : dict),
            set_entity_default (r_id row) (prepare_entity oh row) st1
              = Ok tt st2 ∧
            specifications st2 !! r_id row = Some spec) as (st2 & spec & Es & Hid).
  { unfold set_entity_default, bind, get_specifications.
    destruct (specifications st1 !! r_id row) as [spec|] eqn:E.
    - by exists st1, spec.
    - eexists _, _. split; [done|]. cbn [specifications].
      apply lookup_insert_eq. }
  destruct (do_entity_text_ok oh (r_id row) st2 spec Hid) as (spec1 & Et1 & _).
  unfold bind at 1. rewrite Es. unfold bind at 1. rewrite Et1.
  unfold bind at 1, do_entity_synonyms, bind at 1, send, bind at 1,
    get_specifications at 1. cbn [specifications].
  rewrite lookup_insert_eq.
  destruct (synonym_rows _ spec1) as [e|spec2] eqn:Esyn.
  - apply synonym_rows_error in Esyn as ->. done.
  - done.
Qed.

(** C9, as amended.  For an id that is not in the table
    [do_entity_synonyms] raises [KeyError]; [do_entity_text] raises it
    when the text query answers at least one row and returns without a
    word when it answers none.  In [do_entity] the record is in the table
    before the enrichments run, which therefore never raise [KeyError]:
    a [KeyError] of [do_entity] is one of the structural merge. *)
Theorem enrichment_of_missing_id (oh : onto_helper) (id : string) (st : state) :
  specifications st !! id = None →
  do_entity_synonyms oh id st = Raise (KeyError id) ∧
  (entity_text_query oh id ≠ [] →
     do_entity_text oh id st = Raise (KeyError id)) ∧
  (entity_text_query oh id = [] →
     do_entity_text oh id st =
       Ok tt {| specifications := specifications st;
                queries_sent := queries_sent st ++ [QText id] |}) ∧
  (∀ row st0 k,
     do_entity oh row st0 = Raise (KeyError k) →
     track_other_parent (r_id row) (prepare_entity oh row) st0
       = Raise (KeyError k)).
Proof.
  intros Hid. split; [by apply do_entity_synonyms_missing|].
  split; [by apply do_entity_text_missing|].
  split; [by apply do_entity_text_no_rows|].
  intros row st0 k. apply do_entity_keyerror.
Qed.

Lemma enrichment_of_missing_id_witness :
  do_entity_synonyms silent_helper "X" initial_state = Raise (KeyError "X") ∧
  (entity_text_query silent_helper "X" ≠ [] →
     do_entity_text silent_helper "X" initial_state = Raise (KeyError "X")) ∧
  (entity_text_query silent_helper "X" = [] →
     do_entity_text silent_helper "X" initial_state =
       Ok tt {| specifications := specifications initial_state;
                queries_sent := queries_sent initial_state ++ [QText "X"] |}) ∧
  (∀ row st0 k,
     do_entity silent_helper row st0 = Raise (KeyError k) →
     track_other_parent (r_id row) (prepare_entity silent_helper row) st0
       = Raise (KeyError k)).
Proof.
  apply (enrichment_of_missing_id silent_helper "X" initial_state).
  reflexivity.
Defined.

(** C9 as stated fails: [do_entity_text] on an id that is not in the
    table returns normally when the text query answers no row. *)
Lemma text_enrichment_silent :
  ¬ (∀ (oh : onto_helper) (id : string) (st : state),
       specifications st !! id = None →
       do_entity_text oh id st = Raise (KeyError id) ∧
       do_entity_synonyms oh id st = Raise (KeyError id)).
Proof.
  intros H.
  destruct (H silent_helper "X" initial_state eq_refl) as [Ht _].
  discriminate Ht.
Qed.

(** C10. A record without [parent_id] blocks the merge: when the table
    holds for the id of a row a record that has no [parent_id], as a stub
    has, [do_entity] raises [KeyError] on ['parent_id'].  With two roots,
    the first giving the term A its parent P and the second the term P its
    parent Q, the first root leaves P as a stub and the second root then
    aborts the run. *)
Theorem stub_blocks_merge (oh : onto_helper) (row : tree_row) (st : state)
  (existing : dict) :
  specifications st !! r_id row = Some existing →
  existing !! "parent_id" = None →
  do_entity oh row st = Raise (KeyError "parent_id") ∧
  stub (r_id row) !! "parent_id" = None ∧
  field_of (main_roots two_roots_helper ["root1"] initial_state)
    "P" "datatype" = Some (VStr "entity") ∧
  field_of (main_roots two_roots_helper ["root1"] initial_state)
    "P" "parent_id" = None ∧
  main_roots two_roots_helper ["root1"; "root2"] initial_state
    = Raise (KeyError "parent_id").
Proof.
  intros Hid Hp. split.
  - unfold do_entity. unfold bind at 1, get_specifications at 1.
    unfold bind at 1.
    by rewrite (track_other_parent_stub _ _ existing).
  - split; [apply stub_no_parent|].
    split; [vm_compute; reflexivity|].
    split; vm_compute; reflexivity.
Qed.

Lemma stub_blocks_merge_witness :
  do_entity silent_helper (bare_row "P" "Q") (single_record "P" (stub "P"))
    = Raise (KeyError "parent_id") ∧
  stub (r_id (bare_row "P" "Q")) !! "parent_id" = None ∧
  field_of (main_roots two_roots_helper ["root1"] initial_state)
    "P" "datatype" = Some (VStr "entity") ∧
  field_of (main_roots two_roots_helper ["root1"] initial_state)
    "P" "parent_id" = None ∧
  main_roots two_roots_helper ["root1"; "root2"] initial_state
    = Raise (KeyError "parent_id").
Proof.
  apply (stub_blocks_merge silent_helper (bare_row "P" "Q")
           (single_record "P" (stub "P")) (stub "P")).
  - reflexivity.
  - reflexivity.
Defined.

(** * Further properties of the merger *)

(** ** The text enrichment, field by field *)

Section TextFacts.

Context (oh : onto_helper).

Lemma text_rows_exact id rows :
  ∀ (t : gmap string dict) qs (spec : dict),
    t !! id = Some spec →
    for_each rows (update_text id)
      {| specifications := t; queries_sent := qs |}
    = Ok tt {| specifications := <[id := text_updates rows spec]> t;
               queries_sent := qs |}.
Proof.
  induction rows as [|row rows IH]; intros t qs spec Hid.
  { cbn [for_each text_updates fold_left]. unfold ret. by rewrite insert_id. }
  cbn [for_each]. unfold bind at 1.
  replace (update_text id row {| specifications := t; queries_sent := qs |})
    with (Ok tt {| specifications :=
                     <[id := dict_update spec (text_asdict row)]> t;
                   queries_sent := qs |}).
  - rewrite (IH _ _ (dict_update spec (text_asdict row)))
      by apply lookup_insert_eq.
    by rewrite insert_insert_eq.
  - unfold update_text, bind, get_specifications, put_specifications.
    cbn [specifications queries_sent]. by rewrite Hid.
Qed.

Lemma dict_update_lookup (d other : dict) k :
  dict_update d other !! k =
    match other !! k with Some v => Some v | None => d !! k end.
Proof.
  unfold dict_update. destruct (other !! k) as [v|] eqn:E.
  - by apply lookup_union_Some_l.
  - by apply lookup_union_r.
Qed.

Lemma text_updates_lookup (sel : text_row → option string) k rows :
  (∀ row, text_asdict row !! k = VStr <$> sel row) →
  ∀ spec : dict,
    text_updates rows spec !! k =
      match last_bound sel rows with
      | Some v => Some (VStr v)
      | None => spec !! k
      end.
Proof.
  intros Hk. unfold text_updates.
  induction rows as [|row rows IH]; intros spec; [done|].
  cbn [fold_left last_bound]. rewrite IH.
  destruct (last_bound sel rows); [done|].
  rewrite dict_update_lookup, Hk. by destruct (sel row).
Qed.

Lemma text_updates_outside rows k :
  k ∉ text_keys → ∀ spec : dict, text_updates rows spec !! k = spec !! k.
Proof.
  intros Hk. unfold text_updates.
  induction rows as [|row rows IH]; intros spec; [done|].
  cbn [fold_left]. rewrite IH, dict_update_lookup.
  by rewrite text_asdict_outside.
Qed.

Lemma text_asdict_label row : text_asdict row !! "label" = VStr <$> t_label row.
Proof.
  unfold text_asdict.
  destruct (t_label row), (t_definition row), (t_ui_label row),
    (t_ui_definition row); by simplify_map_eq.
Qed.

Lemma text_asdict_definition row :
  text_asdict row !! "definition" = VStr <$> t_definition row.
Proof.
  unfold text_asdict.
  destruct (t_label row), (t_definition row), (t_ui_label row),
    (t_ui_definition row); by simplify_map_eq.
Qed.

Lemma text_asdict_ui_label row :
  text_asdict row !! "ui_label" = VStr <$> t_ui_label row.
Proof.
  unfold text_asdict.
  destruct (t_label row), (t_definition row), (t_ui_label row),
    (t_ui_definition row); by simplify_map_eq.
Qed.

Lemma text_asdict_ui_definition row :
  text_asdict row !! "ui_definition" = VStr <$> t_ui_definition row.
Proof.
  unfold text_asdict.
  destruct (t_label row), (t_definition row), (t_ui_label row),
    (t_ui_definition row); by simplify_map_eq.
Qed.

Lemma do_entity_text_exact id st (spec : dict) :
  specifications st !! id = Some spec →
  do_entity_text oh id st =
    Ok tt {| specifications :=
               <[id := text_updates (entity_text_query oh id) spec]>
                 (specifications st);
             queries_sent := queries_sent st ++ [QText id] |}.
Proof.
  intros Hid. unfold do_entity_text. unfold bind at 1. unfold send.
  by apply text_rows_exact.
Qed.

End TextFacts.

(** X1. The text pass works on the record it is given and on nothing
    else: for an id of the table [do_entity_text] ends, sends the one text
    query, leaves the set of ids and every other record as they are, and
    changes no field of the record but the four text fields. *)
Theorem text_enrichment_frame (oh : onto_helper) (id : string) (st : state)
  (spec : dict) :
  specifications st !! id = Some spec →
  ∃ (st' : state) (spec' : dict),
    do_entity_text oh id st = Ok tt st' ∧
    queries_sent st' = queries_sent st ++ [QText id] ∧
    specifications st' !! id = Some spec' ∧
    dom (specifications st') = dom (specifications st) ∧
    (∀ id', id' ≠ id → specifications st' !! id' = specifications st !! id') ∧
    (∀ k, k ∉ text_keys → spec' !! k = spec !! k).
Proof.
  intros Hid. eexists _, _. split; [by apply do_entity_text_exact|].
  cbn [specifications queries_sent]. split; [done|].
  split; [apply lookup_insert_eq|]. split; [|split].
  - by apply dom_insert_lookup_L.
  - intros id' Hne. by rewrite lookup_insert_ne.
  - intros k Hk. by apply text_updates_outside.
Qed.

Lemma text_enrichment_frame_witness :
  ∃ (st' : state) (spec' : dict),
    do_entity_text silent_helper "A" (single_record "A" (stub "A"))
      = Ok tt st' ∧
    queries_sent st' =
      queries_sent (single_record "A" (stub "A")) ++ [QText "A"] ∧
    specifications st' !! "A" = Some spec' ∧
    dom (specifications st') =
      dom (specifications (single_record "A" (stub "A"))) ∧
    (∀ id', id' ≠ "A" →
       specifications st' !! id' =
       specifications (single_record "A" (stub "A")) !! id') ∧
    (∀ k, k ∉ text_keys → spec' !! k = stub "A" !! k).
Proof.
  apply (text_enrichment_frame silent_helper "A"
           (single_record "A" (stub "A")) (stub "A")).
  reflexivity.
Defined.

(** X2. The rows of the text query are applied in order and a bound
    variable overwrites the field: after [do_entity_text] each of the four
    text fields holds the value of the last row that binds it, and keeps
    what the record held when no row binds it. *)
Theorem text_enrichment_last_row_wins (oh : onto_helper) (id : string)
  (st : state) (spec : dict) :
  specifications st !! id = Some spec →
  ∃ (st' : state) (spec' : dict),
    do_entity_text oh id st = Ok tt st' ∧
    specifications st' !! id = Some spec' ∧
    spec' !! "label" =
      match last_bound t_label (entity_text_query oh id) with
      | Some v => Some (VStr v) | None => spec !! "label" end ∧
    spec' !! "definition" =
      match last_bound t_definition (entity_text_query oh id) with
      | Some v => Some (VStr v) | None => spec !! "definition" end ∧
    spec' !! "ui_label" =
      match last_bound t_ui_label (entity_text_query oh id) with
      | Some v => Some (VStr v) | None => spec !! "ui_label" end ∧
    spec' !! "ui_definition" =
      match last_bound t_ui_definition (entity_text_query oh id) with
      | Some v => Some (VStr v) | None => spec !! "ui_definition" end.
Proof.
  intros Hid. eexists _, _. split; [by apply do_entity_text_exact|].
  cbn [specifications]. split; [apply lookup_insert_eq|].
  split; [|split; [|split]].
  - apply text_updates_lookup, text_asdict_label.
  - apply text_updates_lookup, text_asdict_definition.
  - apply text_updates_lookup, text_asdict_ui_label.
  - apply text_updates_lookup, text_asdict_ui_definition.
Qed.

Lemma text_enrichment_last_row_wins_witness :
  ∃ (st' : state) (spec' : dict),
    do_entity_text
      (text_helper [label_row (Some "first") (Some "text");
                    label_row (Some "second") None])
      "A" (single_record "A" (stub "A")) = Ok tt st' ∧
    specifications st' !! "A" = Some spec' ∧
    spec' !! "label" =
      match last_bound t_label
              (entity_text_query
                 (text_helper [label_row (Some "first") (Some "text");
                               label_row (Some "second") None]) "A") with
      | Some v => Some (VStr v) | None => stub "A" !! "label" end ∧
    spec' !! "definition" =
      match last_bound t_definition
              (entity_text_query
                 (text_helper [label_row (Some "first") (Some "text");
                               label_row (Some "second") None]) "A") with
      | Some v => Some (VStr v) | None => stub "A" !! "definition" end ∧
    spec' !! "ui_label" =
      match last_bound t_ui_label
              (entity_text_query
                 (text_helper [label_row (Some "first") (Some "text");
                               label_row (Some "second") None]) "A") with
      | Some v => Some (VStr v) | None => stub "A" !! "ui_label" end ∧
    spec' !! "ui_definition" =
      match last_bound t_ui_definition
              (entity_text_query
                 (text_helper [label_row (Some "first") (Some "text");
                               label_row (Some "second") None]) "A") with
      | Some v => Some (VStr v) | None => stub "A" !! "ui_definition" end.
Proof.
  apply (text_enrichment_last_row_wins
           (text_helper [label_row (Some "first") (Some "text");
                         label_row (Some "second") None])
           "A" (single_record "A" (stub "A")) (stub "A")).
  reflexivity.
Defined.

(** ** The synonym enrichment, key by key *)

Lemma appended_rows_none rows field :
  field ∈ SYNONYM_FIELDS →
  Forall (λ row, raw_value row field = None) rows →
  appended_rows rows (PyStr.replace_first "_" ":" field) = [].
Proof.
  intros Hf Hrows. induction Hrows as [|row rows Hrow Hrows IH]; [done|].
  change (appended_rows (row :: rows) (PyStr.replace_first "_" ":" field))
    with (appended SYNONYM_FIELDS row (PyStr.replace_first "_" ":" field)
          ++ appended_rows rows (PyStr.replace_first "_" ":" field)).
  by rewrite IH, appended_field, Hrow.
Qed.

(** X3. The synonym pass works on the record it is given and on nothing
    else: for an id of the table whose synonym fields hold lists,
    [do_entity_synonyms] ends, sends the one synonym query, leaves the set
    of ids and every other record as they are, changes no field but the
    keys of the categories, and leaves the key of a category alone (absent
    if it was absent) when no row has a non-empty value for it. *)
Theorem synonym_enrichment_frame (oh : onto_helper) (id : string) (st : state)
  (spec : dict) :
  specifications st !! id = Some spec →
  syn_ok spec →
  ∃ (st' : state) (spec' : dict),
    do_entity_synonyms oh id st = Ok tt st' ∧
    queries_sent st' = queries_sent st ++ [QSynonyms id] ∧
    specifications st' !! id = Some spec' ∧
    dom (specifications st') = dom (specifications st) ∧
    (∀ id', id' ≠ id → specifications st' !! id' = specifications st !! id') ∧
    (∀ k, k ∉ synonym_keys → spec' !! k = spec !! k) ∧
    (∀ field, field ∈ SYNONYM_FIELDS →
       Forall (λ row, raw_value row field = None)
         (entity_synonyms_query oh id) →
       spec' !! PyStr.replace_first "_" ":" field =
       spec !! PyStr.replace_first "_" ":" field).
Proof.
  intros Hid Hok.
  destruct (do_entity_synonyms_ok oh id st spec Hid Hok) as (spec' & E & H).
  eexists _, spec'. split; [exact E|]. cbn [specifications queries_sent].
  split; [done|]. split; [apply lookup_insert_eq|].
  split; [by apply dom_insert_lookup_L|].
  split; [intros id' Hne; by rewrite lookup_insert_ne|]. split.
  - intros k Hk. by rewrite H, appended_rows_outside.
  - intros field Hf Hrows. by rewrite H, appended_rows_none.
Qed.

Lemma synonym_enrichment_frame_witness :
  ∃ (st' : state) (spec' : dict),
    do_entity_synonyms (synonym_helper "exact_synonym" "foo") "A"
      (single_record "A" (stub "A")) = Ok tt st' ∧
    queries_sent st' =
      queries_sent (single_record "A" (stub "A")) ++ [QSynonyms "A"] ∧
    specifications st' !! "A" = Some spec' ∧
    dom (specifications st') =
      dom (specifications (single_record "A" (stub "A"))) ∧
    (∀ id', id' ≠ "A" →
       specifications st' !! id' =
       specifications (single_record "A" (stub "A")) !! id') ∧
    (∀ k, k ∉ synonym_keys → spec' !! k = stub "A" !! k) ∧
    (∀ field, field ∈ SYNONYM_FIELDS →
       Forall (λ row, raw_value row field = None)
         (entity_synonyms_query (synonym_helper "exact_synonym" "foo") "A") →
       spec' !! PyStr.replace_first "_" ":" field =
       stub "A" !! PyStr.replace_first "_" ":" field).
Proof.
  apply (synonym_enrichment_frame (synonym_helper "exact_synonym" "foo") "A"
           (single_record "A" (stub "A")) (stub "A")).
  - reflexivity.
  - intros k Hk. unfold synonym_keys in Hk. simpl in Hk.
    repeat (apply elem_of_cons in Hk as [->|Hk]; [by vm_compute|]).
    by apply elem_of_nil in Hk.
Defined.

(** ** Raw values of white space *)








(** ** The keys of the final table *)

Lemma truthy_str p : truthy (VStr p) = true ↔ p ≠ EmptyString.
Proof.
  simpl. destruct (String.eqb_spec p EmptyString); split; try done.
Qed.

(** X5. The table [do_entities] builds from the empty table has a record
    for the id of every row and for every non-empty parent id of a row,
    and for no other id. *)
Theorem final_table_keys (oh : onto_helper) (rows : list tree_row) :
  ∃ (t : gmap string dict) (qs : list query),
    do_entities oh rows initial_state =
      Ok tt {| specifications := t; queries_sent := qs |} ∧
    ∀ id, is_Some (t !! id) ↔
          ∃ r, r ∈ rows ∧
               (r_id r = id ∨ (r_parent_id r = id ∧ id ≠ EmptyString)).
Proof.
  destruct (do_entities_ok oh rows) as (t & E & Ht).
  exists t, (row_queries rows). split; [exact E|].
  intros id. specialize (Ht id).
  destruct (rows_of id rows) as [|r0 later] eqn:Hrows.
  - rewrite Ht. case_bool_decide as Hin.
    + apply collect_parents_elem in Hin as [Hin|(r & Hr & Hp & Htr)];
        [by apply elem_of_nil in Hin|].
      split; [|done]. intros _. exists r. split; [done|]. right.
      split; [done|]. by apply truthy_str.
    + split; [by intros [? ?]|].
      intros (r & Hr & [Hid|[Hp Hne]]).
      * assert (r ∈ rows_of id rows) as Hin'
          by (by apply list_elem_of_filter).
        rewrite Hrows in Hin'. by apply elem_of_nil in Hin'.
      * exfalso. apply Hin, collect_parents_elem. right. exists r.
        split; [done|]. split; [done|]. by apply truthy_str.
  - destruct Ht as (d & Hd & _). rewrite Hd. split; [|done].
    intros _. apply rows_of_head in Hrows as [Hid Hin].
    exists r0. split; [done|]. by left.
Qed.

(** X6. Every record of the table [do_entities] builds from the empty
    table holds, in its field [id], the key it is stored under. *)
Theorem records_hold_their_key (oh : onto_helper) (rows : list tree_row) :
  ∃ (t : gmap string dict) (qs : list query),
    do_entities oh rows initial_state =
      Ok tt {| specifications := t; queries_sent := qs |} ∧
    ∀ id (d : dict), t !! id = Some d → d !! "id" = Some (VStr id).
Proof.
  destruct (do_entities_ok oh rows) as (t & E & Ht).
  exists t, (row_queries rows). split; [exact E|].
  intros id d Hd.
  destruct (rows_of id rows) as [|r0 later] eqn:Hrows.
  - specialize (Ht id). rewrite Hrows, Hd in Ht.
    case_bool_decide; [|done]. injection Ht as ->.
    unfold stub. by simplify_map_eq.
  - destruct (final_table_subject oh rows t id r0 later Ht Hrows)
      as (d' & Hd' & Hi & _).
    apply rows_of_head in Hrows as [Hid _].
    assert (d' = d) as -> by congruence. by rewrite Hi, Hid.
Qed.

(** ** One row *)

Section RowMerge.

Context (oh : onto_helper).

Lemma prepare_entity_replaced_by row :
  prepare_entity oh row !! "replaced_by" =
    (λ r, VStr (get_entity_id oh r)) <$> r_replaced_by row.
Proof.
  unfold prepare_entity, tree_asdict.
  destruct (r_label row), (r_deprecated row), (r_replaced_by row),
    (metadata_prefix oh); by simplify_map_eq.
Qed.

Lemma prepare_entity_ontology row :
  prepare_entity oh row !! "ontology" = VStr <$> metadata_prefix oh.
Proof.
  unfold prepare_entity, tree_asdict.
  destruct (r_label row), (r_deprecated row), (r_replaced_by row),
    (metadata_prefix oh); by simplify_map_eq.
Qed.

Lemma prepare_entity_deprecated row :
  prepare_entity oh row !! "deprecated" = VStr <$> r_deprecated row.
Proof.
  unfold prepare_entity, tree_asdict.
  destruct (r_label row), (r_deprecated row), (r_replaced_by row),
    (metadata_prefix oh); by simplify_map_eq.
Qed.

Lemma not_enriched k :
  k ∈ ["id"; "parent_id"; "other_parents"; "datatype"; "deprecated";
       "replaced_by"; "ontology"] →
  k ∉ enriched_keys.
Proof.
  intros Hk. unfold enriched_keys, text_keys, synonym_keys. simpl.
  repeat (apply elem_of_cons in Hk as [->|Hk];
          [intros H; no_such_key H|]).
  by apply elem_of_nil in Hk.
Qed.

Lemma merged_full row (old : option dict) :
  (∀ existing, old = Some existing → full_record existing) →
  is_Some (merged oh row old !! "parent_id") ∧
  list_or_absent (merged oh row old) "other_parents".
Proof.
  intros Hold. destruct old as [existing|]; cbn [merged].
  - destruct (Hold existing eq_refl) as ([ep Hep] & Hop & _).
    unfold track_record. rewrite Hep. destruct (_ && _).
    + split; [by rewrite lookup_insert_ne, Hep|].
      unfold list_or_absent. by rewrite lookup_insert_eq.
    + split; [by rewrite Hep|done].
  - split; [by rewrite prepare_entity_parent_id|].
    unfold list_or_absent. rewrite prepare_entity_outside; [done|].
    unfold row_keys. intros H. no_such_key H.
Qed.

End RowMerge.

(** X7. The first row of an id: on a table without a record for the id
    of the row, [do_entity] ends, sends the text and the synonym query of
    the id, leaves the other records as they are and stores a record with
    the id and the parent of the row, its [deprecated] flag, its
    [replaced_by] passed through [get_entity_id] (the table is not looked
    up for it), the ontology prefix of the metadata when there is one, no
    [other_parents] and no [datatype]. *)
Theorem first_row_of_an_id (oh : onto_helper) (row : tree_row) (st : state) :
  specifications st !! r_id row = None →
  ∃ (d rec : dict) (st' : state),
    do_entity oh row st = Ok d st' ∧
    queries_sent st' =
      queries_sent st ++ [QText (r_id row); QSynonyms (r_id row)] ∧
    specifications st' !! r_id row = Some rec ∧
    (∀ id', id' ≠ r_id row →
       specifications st' !! id' = specifications st !! id') ∧
    rec !! "id" = Some (VStr (r_id row)) ∧
    rec !! "parent_id" = Some (VStr (r_parent_id row)) ∧
    rec !! "deprecated" = VStr <$> r_deprecated row ∧
    rec !! "replaced_by" =
      (λ r, VStr (get_entity_id oh r)) <$> r_replaced_by row ∧
    rec !! "ontology" = VStr <$> metadata_prefix oh ∧
    rec !! "other_parents" = None ∧
    rec !! "datatype" = None.
Proof.
  intros Hid.
  destruct (do_entity_ok oh row st) as (d & rec & E & _ & _ & H).
  { intros existing. by rewrite Hid. }
  rewrite Hid in H. cbn [merged] in H.
  exists d, rec. eexists. split; [exact E|].
  cbn [specifications queries_sent]. split; [done|].
  split; [apply lookup_insert_eq|].
  split; [intros id' Hne; by rewrite lookup_insert_ne|].
  rewrite !H by (apply not_enriched; repeat constructor).
  rewrite prepare_entity_id, prepare_entity_parent_id,
    prepare_entity_deprecated, prepare_entity_replaced_by,
    prepare_entity_ontology.
  repeat (split; [done|]).
  split; apply prepare_entity_outside; unfold row_keys; intros Hk;
    no_such_key Hk.
Qed.

Lemma first_row_of_an_id_witness :
  ∃ (d rec : dict) (st' : state),
    do_entity silent_helper (bare_row "A" "P") initial_state = Ok d st' ∧
    queries_sent st' =
      queries_sent initial_state ++
        [QText (r_id (bare_row "A" "P")); QSynonyms (r_id (bare_row "A" "P"))] ∧
    specifications st' !! r_id (bare_row "A" "P") = Some rec ∧
    (∀ id', id' ≠ r_id (bare_row "A" "P") →
       specifications st' !! id' = specifications initial_state !! id') ∧
    rec !! "id" = Some (VStr (r_id (bare_row "A" "P"))) ∧
    rec !! "parent_id" = Some (VStr (r_parent_id (bare_row "A" "P"))) ∧
    rec !! "deprecated" = VStr <$> r_deprecated (bare_row "A" "P") ∧
    rec !! "replaced_by" =
      (λ r, VStr (get_entity_id silent_helper r))
        <$> r_replaced_by (bare_row "A" "P") ∧
    rec !! "ontology" = VStr <$> metadata_prefix silent_helper ∧
    rec !! "other_parents" = None ∧
    rec !! "datatype" = None.
Proof.
  apply (first_row_of_an_id silent_helper (bare_row "A" "P") initial_state).
  reflexivity.
Defined.

(** X8. A row that repeats the parent the record has, or that has no
    parent, or that comes to a record whose [parent_id] is empty, changes
    nothing structural: when the table holds a full record for the id of
    the row, [do_entity] ends and the record keeps every field that is no
    text and no synonym field, [other_parents] included; the fields of
    the row itself are not stored. *)
Theorem repeated_row_keeps_record (oh : onto_helper) (row : tree_row)
  (st : state) (existing : dict) :
  specifications st !! r_id row = Some existing →
  full_record existing →
  existing !! "parent_id" = Some (VStr (r_parent_id row)) ∨
    r_parent_id row = EmptyString ∨
    (∃ v, existing !! "parent_id" = Some v ∧ truthy v = false) →
  ∃ (d rec : dict) (st' : state),
    do_entity oh row st = Ok d st' ∧
    specifications st' !! r_id row = Some rec ∧
    ∀ k, k ∉ enriched_keys → rec !! k = existing !! k.
Proof.
  intros Hid Hfull Hp.
  destruct (do_entity_ok oh row st) as (d & rec & E & _ & _ & H).
  { intros existing' Hex. assert (existing' = existing) as -> by congruence.
    exact Hfull. }
  rewrite Hid in H. cbn [merged] in H.
  exists d, rec. eexists. split; [exact E|].
  cbn [specifications]. split; [apply lookup_insert_eq|].
  intros k Hk. rewrite (H k Hk). unfold track_record.
  destruct (existing !! "parent_id") as [ep|] eqn:Hep; [|done].
  destruct Hp as [[= ->]|[->|(v & [= ->] & Hv)]].
  - rewrite bool_decide_eq_true_2 by done. by rewrite andb_false_r.
  - done.
  - rewrite Hv. by rewrite andb_false_r.
Qed.

Lemma repeated_row_keeps_record_witness :
  ∃ (d rec : dict) (st' : state),
    do_entity silent_helper (bare_row "A" "P")
      (single_record "A" (record_with_parent "A" "P")) = Ok d st' ∧
    specifications st' !! r_id (bare_row "A" "P") = Some rec ∧
    ∀ k, k ∉ enriched_keys → rec !! k = record_with_parent "A" "P" !! k.
Proof.
  apply (repeated_row_keeps_record silent_helper (bare_row "A" "P")
           (single_record "A" (record_with_parent "A" "P"))
           (record_with_parent "A" "P")).
  - reflexivity.
  - split; [by eexists|]. split; [exact I|].
    intros k Hk. unfold synonym_keys in Hk. simpl in Hk.
    repeat (apply elem_of_cons in Hk as [->|Hk]; [by vm_compute|]).
    by apply elem_of_nil in Hk.
  - left. reflexivity.
Defined.

(** X13. A row with another parent adds it at the end: when the table
    holds a full record for the id of the row, with a non-empty
    [parent_id], and the row has a non-empty parent that differs from it,
    [do_entity] ends, the record keeps its [parent_id] and every other
    field that is no text and no synonym field, and [other_parents] is the
    list it was (empty when the field was absent) with the parent of the
    row at its end. *)
Theorem other_parent_is_appended (oh : onto_helper) (row : tree_row)
  (st : state) (existing : dict) (ep : string) :
  specifications st !! r_id row = Some existing →
  full_record existing →
  existing !! "parent_id" = Some (VStr ep) →
  ep ≠ EmptyString →
  r_parent_id row ≠ EmptyString →
  r_parent_id row ≠ ep →
  ∃ (d rec : dict) (st' : state),
    do_entity oh row st = Ok d st' ∧
    specifications st' !! r_id row = Some rec ∧
    rec !! "parent_id" = Some (VStr ep) ∧
    rec !! "other_parents" =
      Some (VList (list_at existing "other_parents" ++ [r_parent_id row])) ∧
    ∀ k, k ∉ enriched_keys → k ≠ "other_parents" → rec !! k = existing !! k.
Proof.
  intros Hid Hfull Hep Hne1 Hne2 Hne.
  destruct (do_entity_ok oh row st) as (d & rec & E & _ & _ & H).
  { intros existing' Hex. assert (existing' = existing) as -> by congruence.
    exact Hfull. }
  rewrite Hid in H. cbn [merged] in H. unfold track_record in H.
  rewrite Hep in H.
  rewrite (truthy_nonempty (r_parent_id row)), (truthy_nonempty ep) in H
    by done.
  rewrite bool_decide_eq_false_2 in H by congruence.
  cbn [andb negb] in H.
  exists d, rec. eexists. split; [exact E|].
  cbn [specifications]. split; [apply lookup_insert_eq|].
  split; [|split].
  - rewrite H by apply parent_id_not_enriched.
    by rewrite lookup_insert_ne.
  - rewrite H by apply other_parents_not_enriched.
    by rewrite lookup_insert_eq.
  - intros k Hk Hop. rewrite (H k Hk). by rewrite lookup_insert_ne.
Qed.

Lemma other_parent_is_appended_witness :
  ∃ (d rec : dict) (st' : state),
    do_entity silent_helper (bare_row "A" "P2")
      (single_record "A" (record_with_parent "A" "P1")) = Ok d st' ∧
    specifications st' !! r_id (bare_row "A" "P2") = Some rec ∧
    rec !! "parent_id" = Some (VStr "P1") ∧
    rec !! "other_parents" =
      Some (VList (list_at (record_with_parent "A" "P1") "other_parents"
                     ++ [r_parent_id (bare_row "A" "P2")])) ∧
    ∀ k, k ∉ enriched_keys → k ≠ "other_parents" →
         rec !! k = record_with_parent "A" "P1" !! k.
Proof.
  apply (other_parent_is_appended silent_helper (bare_row "A" "P2")
           (single_record "A" (record_with_parent "A" "P1"))
           (record_with_parent "A" "P1") "P1").
  - reflexivity.
  - split; [by eexists|]. split; [exact I|].
    intros k Hk. unfold synonym_keys in Hk. simpl in Hk.
    repeat (apply elem_of_cons in Hk as [->|Hk]; [by vm_compute|]).
    by apply elem_of_nil in Hk.
  - reflexivity.
  - discriminate.
  - discriminate.
  - discriminate.
Defined.

(** ** [do_entities] on a table that is not empty *)

Section LaterCalls.

Context (oh : onto_helper).

(** One row keeps the records of a set of ids full. *)
Lemma do_entity_safe (all : list tree_row) row st :
  row ∈ all →
  (∀ r, r ∈ all → ∀ d : dict,
     specifications st !! r_id r = Some d → full_record d) →
  ∃ (d : dict) (st' : state),
    do_entity oh row st = Ok d st' ∧
    get_parent_id d = Some (r_parent_id row) ∧
    queries_sent st' =
      queries_sent st ++ [QText (r_id row); QSynonyms (r_id row)] ∧
    (∃ rec : dict, specifications st' !! r_id row = Some rec ∧
                   is_Some (rec !! "parent_id")) ∧
    (∀ id', id' ≠ r_id row →
       specifications st' !! id' = specifications st !! id') ∧
    (∀ r, r ∈ all → ∀ d : dict,
       specifications st' !! r_id r = Some d → full_record d).
Proof.
  intros Hrow Hfull.
  destruct (do_entity_ok oh row st) as (d & rec & E & Hp & Hok & H).
  { intros existing Hex. by apply (Hfull row Hrow). }
  destruct (merged_full oh row (specifications st !! r_id row))
    as [Hmp Hmo].
  { intros existing Hex. by apply (Hfull row Hrow). }
  assert (full_record rec) as Hrec.
  { split; [|split; [|done]].
    - rewrite H; [done|apply parent_id_not_enriched].
    - unfold list_or_absent.
      rewrite H; [done|apply other_parents_not_enriched]. }
  exists d. eexists. split; [exact E|]. split; [done|].
  cbn [specifications queries_sent]. split; [done|].
  split; [exists rec; split; [apply lookup_insert_eq|apply Hrec]|].
  split; [intros id' Hne; by rewrite lookup_insert_ne|].
  intros r Hr d' Hd'. destruct (decide (r_id r = r_id row)) as [Heq|Hne].
  - rewrite Heq, lookup_insert_eq in Hd'. by injection Hd' as <-.
  - rewrite lookup_insert_ne in Hd' by done. by apply (Hfull r Hr).
Qed.

Lemma first_pass_safe (all : list tree_row) rest :
  ∀ st parents,
    (∀ r, r ∈ rest → r ∈ all) →
    (∀ r, r ∈ all → ∀ d : dict,
       specifications st !! r_id r = Some d → full_record d) →
    ∃ st' : state,
      first_pass oh rest parents st = Ok (collect_parents rest parents) st' ∧
      queries_sent st' = queries_sent st ++ row_queries rest ∧
      (∀ id, is_Some (specifications st !! id) →
             is_Some (specifications st' !! id)) ∧
      (∀ r, r ∈ rest → ∃ d : dict,
         specifications st' !! r_id r = Some d ∧ is_Some (d !! "parent_id")) ∧
      (∀ r, r ∈ all → ∀ d : dict,
         specifications st' !! r_id r = Some d → full_record d).
Proof.
  induction rest as [|row rest IH]; intros st parents Hsub Hfull.
  { exists st. cbn [first_pass collect_parents row_queries flat_map].
    rewrite app_nil_r. split; [done|]. split; [done|]. split; [done|].
    split; [|done]. intros r Hr. by apply elem_of_nil in Hr. }
  destruct (do_entity_safe all row st)
    as (d & st1 & E & Hp & Hq & Hrec & Hoth & Hfull1);
    [apply Hsub; left|done|].
  destruct (IH st1
              (if truthy (VStr (r_parent_id row)) then
                 if bool_decide (r_parent_id row ∈ parents) then parents
                 else parents ++ [r_parent_id row]
               else parents))
    as (st' & E' & Hq' & Hmono & Hrows & Hfull'); [|done|].
  { intros r Hr. apply Hsub. by right. }
  exists st'. split.
  { cbn [first_pass]. unfold bind at 1. by rewrite E, Hp, E'. }
  split.
  { rewrite Hq', Hq. cbn [row_queries flat_map]. by rewrite <- app_assoc. }
  split.
  { intros id His. apply Hmono.
    destruct (decide (id = r_id row)) as [->|Hne].
    - destruct Hrec as (rec & -> & _). done.
    - by rewrite Hoth. }
  split; [|done].
  intros r [->|Hr]%elem_of_cons; [|by apply Hrows].
  destruct Hrec as (rec & Hrec & _).
  destruct (Hmono (r_id row)) as [d' Hd']; [by rewrite Hrec|].
  exists d'. split; [done|].
  by destruct (Hfull' row (Hsub row ltac:(left)) d' Hd') as [? _].
Qed.

End LaterCalls.

(** X9. When [do_entities] is safe on a table that is not empty: if every
    record the table holds for the id of a row is full (it has a
    [parent_id] and lists in its list fields), [do_entities] ends, sends
    the text and the synonym query of every row, removes no id from the
    table, and every id of a row has a record with a [parent_id]. *)
Theorem do_entities_on_full_records (oh : onto_helper) (rows : list tree_row)
  (st : state) :
  (∀ r, r ∈ rows → ∀ d : dict,
     specifications st !! r_id r = Some d → full_record d) →
  ∃ st' : state,
    do_entities oh rows st = Ok tt st' ∧
    queries_sent st' = queries_sent st ++ row_queries rows ∧
    (∀ id, is_Some (specifications st !! id) →
           is_Some (specifications st' !! id)) ∧
    (∀ r, r ∈ rows → ∃ d : dict,
       specifications st' !! r_id r = Some d ∧ is_Some (d !! "parent_id")).
Proof.
  intros Hfull.
  destruct (first_pass_safe oh rows rows st [])
    as (st1 & E1 & Hq1 & Hmono & Hrows & _); [done|done|].
  destruct st1 as [t1 qs1].
  destruct (second_pass_ok (collect_parents rows []) t1 qs1)
    as (t2 & E2 & H2).
  eexists. split.
  { unfold do_entities, bind. rewrite E1. exact E2. }
  cbn [specifications queries_sent] in *. split; [done|]. split.
  - intros id His. destruct (Hmono id His) as [d Hd].
    by rewrite H2, Hd.
  - intros r Hr. destruct (Hrows r Hr) as (d & Hd & Hp).
    exists d. by rewrite H2, Hd.
Qed.

Lemma do_entities_on_full_records_witness :
  ∃ st' : state,
    do_entities silent_helper [bare_row "A" "P2"]
      (single_record "A" (record_with_parent "A" "P1")) = Ok tt st' ∧
    queries_sent st' =
      queries_sent (single_record "A" (record_with_parent "A" "P1"))
        ++ row_queries [bare_row "A" "P2"] ∧
    (∀ id,
       is_Some (specifications
                  (single_record "A" (record_with_parent "A" "P1")) !! id) →
       is_Some (specifications st' !! id)) ∧
    (∀ r, r ∈ [bare_row "A" "P2"] → ∃ d : dict,
       specifications st' !! r_id r = Some d ∧ is_Some (d !! "parent_id")).
Proof.
  apply (do_entities_on_full_records silent_helper [bare_row "A" "P2"]
           (single_record "A" (record_with_parent "A" "P1"))).
  intros r Hr d Hd.
  apply elem_of_cons in Hr as [->|Hr]; [|by apply elem_of_nil in Hr].
  injection Hd as <-.
  split; [by eexists|]. split; [exact I|].
  intros k Hk. unfold synonym_keys in Hk. simpl in Hk.
  repeat (apply elem_of_cons in Hk as [->|Hk]; [by vm_compute|]).
  by apply elem_of_nil in Hk.
Defined.

(** X10. The backfill is idempotent: the second loop of [do_entities]
    always ends, and running it again on the table it leaves changes
    nothing. *)
Theorem second_pass_idempotent (parents : list string) (st : state) :
  ∃ st' : state,
    second_pass parents st = Ok tt st' ∧
    second_pass parents st' = Ok tt st'.
Proof.
  destruct st as [t qs].
  destruct (second_pass_ok parents t qs) as (t' & E & H).
  destruct (second_pass_ok parents t' qs) as (t'' & E' & H').
  eexists. split; [exact E|]. rewrite E'. f_equal. f_equal.
  apply map_eq. intros id. rewrite H', H.
  destruct (t !! id); [done|]. by destruct (bool_decide (id ∈ parents)).
Qed.

(** ** The roots of a run *)





(** ** Synonyms of a term with several rows *)

Section RepeatedEnrichment.

Context (oh : onto_helper).

Lemma enrich_synonym_keys id st (spec : dict) :
  specifications st !! id = Some spec →
  syn_ok spec →
  ∃ (spec1 spec' : dict),
    do_entity_text oh id st =
      Ok tt {| specifications := <[id := spec1]> (specifications st);
               queries_sent := queries_sent st ++ [QText id] |} ∧
    do_entity_synonyms oh id
      {| specifications := <[id := spec1]> (specifications st);
         queries_sent := queries_sent st ++ [QText id] |} =
      Ok tt {| specifications := <[id := spec']> (specifications st);
               queries_sent := queries_sent st ++ [QText id; QSynonyms id] |} ∧
    ∀ k, k ∈ synonym_keys →
         spec' !! k =
         merge_val (spec !! k) (appended_rows (entity_synonyms_query oh id) k).
Proof.
  intros Hid Hok.
  destruct (do_entity_text_ok oh id st spec Hid) as (spec1 & E1 & H1).
  set (st1 := {| specifications := <[id := spec1]> (specifications st);
                 queries_sent := queries_sent st ++ [QText id] |}) in *.
  assert (syn_ok spec1) as Hok1.
  { intros k Hk. unfold list_or_absent.
    rewrite H1 by (by apply synonym_not_text). by apply Hok. }
  destruct (do_entity_synonyms_ok oh id st1 spec1) as (spec2 & E2 & H2);
    [apply lookup_insert_eq|done|].
  exists spec1, spec2. split; [done|]. split.
  - subst st1. rewrite E2. cbn [specifications queries_sent].
    by rewrite insert_insert_eq, <- app_assoc.
  - intros k Hk. rewrite H2, H1; [done|by apply synonym_not_text].
Qed.

Lemma other_parents_no_synonym_key : "other_parents" ∉ synonym_keys.
Proof. unfold synonym_keys. simpl. intros H. no_such_key H. Qed.

Lemma merged_synonym_key row (old : option dict) k :
  k ∈ synonym_keys →
  merged oh row old !! k = old ≫= (λ d : dict, d !! k).
Proof.
  intros Hk. destruct old as [existing|]; cbn [merged mbind option_bind].
  - unfold track_record. destruct (existing !! "parent_id"); [|done].
    destruct (_ && _); [|done]. rewrite lookup_insert_ne; [done|].
    intros <-. by apply other_parents_no_synonym_key.
  - apply prepare_entity_outside. intros Hin. revert Hk.
    unfold synonym_keys. simpl. unfold row_keys in Hin.
    repeat (apply elem_of_cons in Hin as [->|Hin];
            [intros Hk; no_such_key Hk|]).
    by apply elem_of_nil in Hin.
Qed.

(** [do_entity] and the synonym fields of the record it leaves. *)
Lemma do_entity_synonym_keys row st :
  (∀ existing : dict, specifications st !! r_id row = Some existing →
     is_Some (existing !! "parent_id") ∧
     list_or_absent existing "other_parents" ∧ syn_ok existing) →
  ∃ (d rec : dict),
    do_entity oh row st =
      Ok d {| specifications := <[r_id row := rec]> (specifications st);
              queries_sent :=
                queries_sent st ++ [QText (r_id row); QSynonyms (r_id row)] |} ∧
    ∀ k, k ∈ synonym_keys →
         rec !! k =
         merge_val (specifications st !! r_id row ≫= (λ d : dict, d !! k))
           (appended_rows (entity_synonyms_query oh (r_id row)) k).
Proof.
  intros Hwf. unfold do_entity. unfold bind at 1, get_specifications at 1.
  destruct (specifications st !! r_id row) as [existing|] eqn:Hid.
  - destruct (Hwf existing eq_refl) as ([ep Hep] & Hop & Hok).
    unfold bind at 1.
    rewrite (track_other_parent_existing _ _ existing (r_parent_id row) ep)
      by (done || apply prepare_entity_parent_id).
    unfold bind at 1, set_entity_default at 1, bind at 1,
      get_specifications at 1. cbn [specifications].
    rewrite lookup_insert_eq. unfold ret at 1.
    set (st1 := {| specifications := _; queries_sent := _ |}).
    destruct (enrich_synonym_keys (r_id row) st1
                (track_record (r_parent_id row) existing))
      as (spec1 & rec & E1 & E2 & H);
      [apply lookup_insert_eq|by apply track_record_syn_ok|].
    exists (prepare_entity oh row), rec.
    unfold bind at 1. rewrite E1. unfold bind at 1. rewrite E2.
    unfold bind, get_specifications, ret. cbn [specifications queries_sent].
    subst st1. cbn [specifications queries_sent].
    rewrite insert_insert_eq. split; [done|].
    intros k Hk. rewrite (H k Hk). f_equal.
    exact (merged_synonym_key row (Some existing) k Hk).
  - unfold bind at 1. rewrite track_other_parent_new by done.
    unfold bind at 1, set_entity_default at 1, bind at 1,
      get_specifications at 1. rewrite Hid. unfold put_specifications at 1.
    set (st1 := {| specifications := _; queries_sent := _ |}).
    destruct (enrich_synonym_keys (r_id row) st1 (prepare_entity oh row))
      as (spec1 & rec & E1 & E2 & H);
      [apply lookup_insert_eq|apply prepare_entity_syn_ok|].
    exists rec, rec.
    unfold bind at 1. rewrite E1. unfold bind at 1. rewrite E2.
    unfold bind, get_specifications, ret. cbn [specifications queries_sent].
    subst st1. cbn [specifications queries_sent].
    rewrite insert_insert_eq, lookup_insert_eq. split; [done|].
    intros k Hk. rewrite (H k Hk). f_equal.
    exact (merged_synonym_key row None k Hk).
Qed.

Lemma concat_replicate_snoc {A} n (l : list A) :
  concat (replicate (S n) l) = concat (replicate n l) ++ l.
Proof.
  induction n as [|n IH].
  { simpl. by rewrite app_nil_r. }
  change (concat (replicate (S (S n)) l))
    with (l ++ concat (replicate (S n) l)).
  rewrite IH at 1. by rewrite app_assoc.
Qed.

Lemma table_of_full done (t : gmap string dict) id (existing : dict) :
  table_of oh done t →
  t !! id = Some existing →
  is_Some (existing !! "parent_id") ∧
  list_or_absent existing "other_parents" ∧ syn_ok existing.
Proof.
  intros Ht Hex. specialize (Ht id).
  destruct (rows_of id done) as [|r0 later]; [congruence|].
  destruct Ht as (d & Hd & Hok & Hop & Hk).
  assert (d = existing) as -> by congruence.
  split; [|split; [|done]].
  - rewrite Hk, prepare_entity_parent_id;
      [done|apply parent_id_not_enriched|done].
  - unfold list_or_absent. rewrite Hop. by destruct (later_parents _ _).
Qed.

Lemma do_entity_synonym_step done row (t : gmap string dict) qs :
  table_of oh done t →
  synonyms_of oh done t →
  ∃ (d : dict) (t' : gmap string dict),
    do_entity oh row {| specifications := t; queries_sent := qs |} =
      Ok d {| specifications := t';
              queries_sent := qs ++ [QText (r_id row); QSynonyms (r_id row)] |} ∧
    get_parent_id d = Some (r_parent_id row) ∧
    table_of oh (done ++ [row]) t' ∧
    synonyms_of oh (done ++ [row]) t'.
Proof.
  intros Ht Hs.
  destruct (do_entity_step oh done row t qs Ht) as (d & t' & E & Hp & Ht').
  destruct (do_entity_synonym_keys row
              {| specifications := t; queries_sent := qs |})
    as (d2 & rec & E2 & Hsyn).
  { cbn [specifications]. intros existing Hex.
    by apply (table_of_full done t (r_id row)). }
  cbn [specifications queries_sent] in *.
  rewrite E in E2. injection E2 as _ ->.
  exists d, (<[r_id row := rec]> t). split; [done|]. split; [done|].
  split; [done|].
  intros id k Hk. rewrite rows_of_snoc.
  specialize (Hs id k Hk). specialize (Ht id).
  case_bool_decide as Hid.
  - subst id. destruct (rows_of (r_id row) done) as [|r0 later].
    + cbn [app length]. exists rec. rewrite lookup_insert_eq.
      split; [done|]. rewrite (Hsyn k Hk), Ht. cbn [mbind option_bind].
      cbn [replicate concat]. by rewrite app_nil_r.
    + destruct Hs as (d0 & Hd0 & Hk0).
      rewrite <- app_comm_cons. exists rec. rewrite lookup_insert_eq.
      split; [done|]. rewrite (Hsyn k Hk), Hd0. cbn [mbind option_bind].
      rewrite Hk0, merge_val_app, length_app. cbn [length].
      rewrite Nat.add_1_r.
      by rewrite (concat_replicate_snoc (S (length later))).
  - rewrite app_nil_r, lookup_insert_ne by done. exact Hs.
Qed.

Lemma first_pass_synonyms rest :
  ∀ done (t : gmap string dict) qs parents,
    table_of oh done t →
    synonyms_of oh done t →
    ∃ t' : gmap string dict,
      first_pass oh rest parents {| specifications := t; queries_sent := qs |} =
        Ok (collect_parents rest parents)
           {| specifications := t'; queries_sent := qs ++ row_queries rest |} ∧
      table_of oh (done ++ rest) t' ∧
      synonyms_of oh (done ++ rest) t'.
Proof.
  induction rest as [|row rest IH]; intros done t qs parents Ht Hs.
  { exists t. cbn [first_pass collect_parents row_queries flat_map].
    rewrite !app_nil_r. by split. }
  destruct (do_entity_synonym_step done row t qs Ht Hs)
    as (d & t1 & E & Hp & Ht1 & Hs1).
  destruct (IH (done ++ [row]) t1
              (qs ++ [QText (r_id row); QSynonyms (r_id row)])
              (if truthy (VStr (r_parent_id row)) then
                 if bool_decide (r_parent_id row ∈ parents) then parents
                 else parents ++ [r_parent_id row]
               else parents) Ht1 Hs1) as (t' & E' & Ht' & Hs').
  exists t'. split.
  - cbn [first_pass]. unfold bind at 1. rewrite E, Hp, E'.
    cbn [collect_parents row_queries flat_map]. by rewrite <- app_assoc.
  - rewrite <- app_assoc in Ht', Hs'. by split.
Qed.

End RepeatedEnrichment.

(** X12. Synonyms are added once for each row of a term: after
    [do_entities] on the empty table, the list of a category in the record
    of an id holds the phrases the graph has for that id and category as
    many times over as the id has rows, so that a term with two parents
    has each of its synonyms twice. *)
Theorem synonyms_once_per_row (oh : onto_helper) (rows : list tree_row) :
  ∃ (t : gmap string dict) (qs : list query),
    do_entities oh rows initial_state =
      Ok tt {| specifications := t; queries_sent := qs |} ∧
    ∀ id r0 later k,
      rows_of id rows = r0 :: later →
      k ∈ synonym_keys →
      ∃ d : dict,
        t !! id = Some d ∧
        list_at d k =
          concat (replicate (length (r0 :: later))
                    (appended_rows (entity_synonyms_query oh id) k)).
Proof.
  destruct (first_pass_synonyms oh rows [] ∅ [] [] (table_of_empty oh))
    as (t1 & E1 & _ & H1).
  { intros id k _. done. }
  destruct (second_pass_ok (collect_parents rows []) t1 (row_queries rows))
    as (t2 & E2 & H2).
  exists t2, (row_queries rows). split.
  { unfold do_entities, bind, initial_state. rewrite E1. exact E2. }
  intros id r0 later k Hrows Hk.
  specialize (H1 id k Hk). rewrite app_nil_l, Hrows in H1.
  destruct H1 as (d & Hd & Hdk). exists d. rewrite H2, Hd.
  split; [done|]. unfold list_at. rewrite Hdk. cbn [length].
  by destruct (concat _).
Qed.

Example synonyms_twice :
  field_of (do_entities (synonyms_of_A "exact_synonym" "foo")
              [bare_row "A" "P1"; bare_row "A" "P2"] initial_state)
    "A" "exact:synonym" = Some (VList ["foo"; "foo"]).
Proof. vm_compute. reflexivity. Qed.

(** ** The parents the first loop collects *)

Lemma collect_parents_NoDup rows :
  ∀ parents, NoDup parents → NoDup (collect_parents rows parents).
Proof.
  induction rows as [|r rows IH]; intros parents Hnd; [done|].
  cbn [collect_parents]. apply IH.
  destruct (truthy (VStr (r_parent_id r))); [|done].
  case_bool_decide as Hin; [done|].
  apply NoDup_app. split; [done|]. split; [|apply NoDup_singleton].
  intros p Hp ->%list_elem_of_singleton. done.
Qed.

(** X14. The first loop of [do_entities] on the empty table ends and
    returns the list of parents without a repetition: a parent id is in
    it, once, exactly when it is the non-empty parent of a row. *)
Theorem parents_collected_once (oh : onto_helper) (rows : list tree_row) :
  ∃ (parents : list string) (st' : state),
    first_pass oh rows [] initial_state = Ok parents st' ∧
    NoDup parents ∧
    ∀ p, p ∈ parents ↔
         ∃ r, r ∈ rows ∧ r_parent_id r = p ∧ p ≠ EmptyString.
Proof.
  destruct (first_pass_ok oh rows [] ∅ [] [] (table_of_empty oh))
    as (t & E & _).
  eexists _, _. split; [exact E|]. split.
  - apply collect_parents_NoDup, NoDup_nil_2.
  - intros p. rewrite collect_parents_elem. split.
    + intros [Hp|(r & Hr & Hp & Ht)]; [by apply elem_of_nil in Hp|].
      exists r. split; [done|]. split; [done|]. by apply truthy_str.
    + intros (r & Hr & Hp & Hne). right. exists r.
      split; [done|]. split; [done|]. by apply truthy_str.
Qed.
